(** * CareOps automation engine: a shallow embedding

    The automation / reminder engine of the CareOps backend
    ([backend/src/services/automation.service.ts], with the two channel
    adapters [email.service.ts] and [sms.service.ts]) embedded in Rocq.

    - [Module Js]: the fragment of JavaScript the engine relies on
      (primitive values, truthiness, [String(v)], objects as ordered
      property lists, [String.prototype.replace] with a global literal
      pattern, [trim]).
    - [Module Engine]: the database tables read and written through
      Prisma, the channels, and the engine's functions written in a small
      state-and-exception monad.
    - [Module Template]: templates as literal text and placeholders, to
      say what the renderer computes.
    - [Module Scenario]: example worlds.
    - Afterwards: the properties of the engine. *)

From Stdlib Require Import String Ascii List ZArith Bool Lia Arith.
From Stdlib Require Import DecimalString.
Import ListNotations.

Open Scope string_scope.
Open Scope Z_scope.

(* ================================================================== *)
(** * The JavaScript fragment                                          *)
(* ================================================================== *)

Module Js.

(** Primitive values.  Numbers are the integer-valued ones (every number
    the engine puts into a context is a Prisma [Int]); objects appear
    only as property lists ([Object] below). *)
Inductive JsValue : Type :=
| JsUndefined
| JsNull
| JsBool (b : bool)
| JsNumber (n : Z)
| JsString (s : string).

(** [ToBoolean]: [undefined], [null], [false], [0] and [""] are falsy. *)
Definition truthy (v : JsValue) : bool :=
  match v with
  | JsUndefined | JsNull => false
  | JsBool b => b
  | JsNumber n => negb (n =? 0)
  | JsString s => negb (s =? "")%string
  end.

(** [ToString].  Integers are printed in decimal, as JavaScript prints
    those of magnitude below 10^21. *)
Definition toString (v : JsValue) : string :=
  match v with
  | JsUndefined => "undefined"
  | JsNull => "null"
  | JsBool true => "true"
  | JsBool false => "false"
  | JsNumber n => NilZero.string_of_int (Z.to_int n)
  | JsString s => s
  end.

(** [a || b]. *)
Definition or_else (a b : JsValue) : JsValue :=
  if truthy a then a else b.

(** An object: its own enumerable string-keyed properties in the order
    [Object.keys] lists them (insertion order for keys that are not
    array indices). *)
Definition Object : Type := list (string * JsValue).

Definition keys (o : Object) : list string := map fst o.

(** [o[k]]: the property's value, [undefined] when there is none. *)
Fixpoint get (o : Object) (k : string) : JsValue :=
  match o with
  | [] => JsUndefined
  | (k', v) :: o' => if (k' =? k)%string then v else get o' k
  end.

Definition hasKey (o : Object) (k : string) : bool :=
  existsb (String.eqb k) (keys o).

(** ** Strings *)

Fixpoint startsWith (pat s : string) : bool :=
  match pat with
  | EmptyString => true
  | String p pat' =>
      match s with
      | EmptyString => false
      | String c s' => Ascii.eqb p c && startsWith pat' s'
      end
  end.

Fixpoint drop (n : nat) (s : string) : string :=
  match n with
  | O => s
  | S n' => match s with
            | EmptyString => EmptyString
            | String _ s' => drop n' s'
            end
  end.

(** [hay.includes(needle)]; also the meaning of Prisma's [contains]
    filter on a case-sensitive column. *)
Fixpoint includes (needle hay : string) : bool :=
  startsWith needle hay ||
  match hay with
  | EmptyString => false
  | String _ hay' => includes needle hay'
  end.

(** [GetSubstitution] for a match without capture groups: in the
    replacement text [$$] is a dollar sign, [$&] the matched text,
    [$`] the text before the match and [$'] the text after it; any other
    [$] stands for itself. *)
Fixpoint getSubstitution (matched before after rep : string) : string :=
  match rep with
  | EmptyString => EmptyString
  | String c rest =>
      if Ascii.eqb c "$" then
        match rest with
        | EmptyString => String c EmptyString
        | String d rest' =>
            if Ascii.eqb d "$" then
              String "$" (getSubstitution matched before after rest')
            else if Ascii.eqb d "&" then
              matched ++ getSubstitution matched before after rest'
            else if Ascii.eqb d "`" then
              before ++ getSubstitution matched before after rest'
            else if Ascii.eqb d "'" then
              after ++ getSubstitution matched before after rest'
            else String c (getSubstitution matched before after rest)
        end
      else String c (getSubstitution matched before after rest)
  end.

(** [s.replace(new RegExp(pat, 'g'), rep)] for a pattern that matches
    exactly the text [pat] (no character of it has a meaning in a regular
    expression), [pat] not empty.  The scan goes left to right over the
    ORIGINAL string: [before] is the part already passed, [skip] the
    number of characters of the current match still to pass.  Replaced
    text is never scanned again. *)
Fixpoint replaceFrom (pat rep before : string) (skip : nat) (s : string)
  : string :=
  match s with
  | EmptyString => EmptyString
  | String c s' =>
      let before' := before ++ String c EmptyString in
      match skip with
      | S k => replaceFrom pat rep before' k s'
      | O =>
          if startsWith pat s then
            getSubstitution pat before (drop (String.length pat) s) rep
              ++ replaceFrom pat rep before' (String.length pat - 1) s'
          else String c (replaceFrom pat rep before' O s')
      end
  end.

Definition replaceAll (pat rep s : string) : string :=
  replaceFrom pat rep EmptyString O s.

(** White space removed by [trim] (the ASCII part of it). *)
Definition isSpace (c : ascii) : bool :=
  let n := nat_of_ascii c in
  ((n =? 32) || ((9 <=? n) && (n <=? 13)))%nat.

Fixpoint trimStart (s : string) : string :=
  match s with
  | EmptyString => EmptyString
  | String c s' => if isSpace c then trimStart s' else s
  end.

Fixpoint trimEnd (s : string) : string :=
  match s with
  | EmptyString => EmptyString
  | String c s' =>
      match trimEnd s' with
      | EmptyString => if isSpace c then EmptyString else String c EmptyString
      | t => String c t
      end
  end.

Definition trim (s : string) : string := trimEnd (trimStart s).

(** A key made of letters, digits and underscores that does not start
    with a digit.  For such a key the regular expression built from
    [{{key}}] matches exactly that text, and [Object.keys] keeps
    insertion order. *)
Definition isLetter (c : ascii) : bool :=
  let n := nat_of_ascii c in
  (((65 <=? n) && (n <=? 90)) || ((97 <=? n) && (n <=? 122)) || (n =? 95))%nat.

Definition isDigit (c : ascii) : bool :=
  let n := nat_of_ascii c in ((48 <=? n) && (n <=? 57))%nat.

Fixpoint allChars (p : ascii -> bool) (s : string) : bool :=
  match s with
  | EmptyString => true
  | String c s' => p c && allChars p s'
  end.

Definition identifier (k : string) : bool :=
  match k with
  | EmptyString => false
  | String c k' => isLetter c && allChars (fun d => isLetter d || isDigit d) k'
  end.

End Js.

(* ================================================================== *)
(** * The engine                                                       *)
(* ================================================================== *)

Module Engine.
Import Js.

(** Points in time are milliseconds since the epoch. *)
Definition Time : Type := Z.

Definition msPerDay : Z := 86400000.
Definition msPerHour : Z := 3600000.

(** ** Enumerations *)

(** Modelled from the spec: the Prisma schema that declares the enums is
    not among the sources.  The engine names [BOOKING_REMINDER],
    [FORM_PENDING] and [INVENTORY_LOW]; the spec lists four more
    triggers, raised by the controllers. *)
Inductive AutomationTrigger : Type :=
| BOOKING_REMINDER | FORM_PENDING | INVENTORY_LOW
| BOOKING_CREATED | CONTACT_CREATED | FORM_SUBMITTED | BOOKING_COMPLETED.

Inductive AutomationAction : Type := SEND_EMAIL | SEND_SMS | CREATE_ALERT.

Inductive BookingStatus : Type :=
| Booking_PENDING | Booking_CONFIRMED | Booking_COMPLETED
| Booking_CANCELLED | Booking_NO_SHOW.

Inductive FormSubmissionStatus : Type := PENDING | COMPLETED | OVERDUE.

Inductive AlertPriority : Type := LOW | MEDIUM | HIGH.

Definition trigger_eqb (a b : AutomationTrigger) : bool :=
  match a, b with
  | BOOKING_REMINDER, BOOKING_REMINDER | FORM_PENDING, FORM_PENDING
  | INVENTORY_LOW, INVENTORY_LOW | BOOKING_CREATED, BOOKING_CREATED
  | CONTACT_CREATED, CONTACT_CREATED | FORM_SUBMITTED, FORM_SUBMITTED
  | BOOKING_COMPLETED, BOOKING_COMPLETED => true
  | _, _ => false
  end.

Definition bookingStatus_eqb (a b : BookingStatus) : bool :=
  match a, b with
  | Booking_PENDING, Booking_PENDING | Booking_CONFIRMED, Booking_CONFIRMED
  | Booking_COMPLETED, Booking_COMPLETED
  | Booking_CANCELLED, Booking_CANCELLED
  | Booking_NO_SHOW, Booking_NO_SHOW => true
  | _, _ => false
  end.

Definition formStatus_eqb (a b : FormSubmissionStatus) : bool :=
  match a, b with
  | PENDING, PENDING | COMPLETED, COMPLETED | OVERDUE, OVERDUE => true
  | _, _ => false
  end.

(** ** Rows of the tables the engine touches *)

Module Automation.
Record t : Type := make {
  id : string;
  workspaceId : string;
  name : string;
  trigger : AutomationTrigger;
  action : AutomationAction;
  config : Object;          (* free-form JSON object *)
  isActive : bool
}.
End Automation.

(** Modelled from the spec: the Alert model of the missing Prisma
    schema.  [isRead] defaults to false and [createdAt] to the time of
    creation. *)
Module Alert.
Record t : Type := make {
  workspaceId : string;
  type : string;
  priority : AlertPriority;
  title : string;
  message : string;
  linkTo : option string;
  isRead : bool;
  createdAt : Time
}.
End Alert.

Module Contact.
Record t : Type := make {
  firstName : string;
  lastName : option string;
  email : option string;
  phone : option string
}.
End Contact.

Module Booking.
Record t : Type := make {
  id : string;
  workspaceId : string;
  startTime : Time;
  status : BookingStatus;
  contact : option Contact.t;       (* include: contact *)
  bookingType : option string       (* include: bookingType, its name *)
}.
End Booking.

Module FormSubmission.
Record t : Type := make {
  id : string;
  status : FormSubmissionStatus;
  createdAt : Time;
  dueDate : option Time;
  formName : string;                (* include: form *)
  contact : Contact.t;              (* include: contact *)
  booking : option Booking.t        (* include: booking *)
}.

Definition withStatus (st : FormSubmissionStatus) (s : t) : t :=
  make (id s) st (createdAt s) (dueDate s) (formName s) (contact s)
       (booking s).
End FormSubmission.

Module InventoryItem.
Record t : Type := make {
  id : string;
  workspaceId : string;
  name : string;
  quantity : Z;
  lowStockThreshold : Z;
  isActive : bool
}.
End InventoryItem.

(** ** Channel payloads.  The interfaces declare strings; at run time the
    fields hold whatever the untyped context and configuration hold. *)

Record EmailPayload : Type := mkEmail {
  email_to : JsValue;
  email_subject : JsValue;
  email_body : JsValue
}.

Record SMSPayload : Type := mkSMS {
  sms_to : JsValue;
  sms_message : JsValue
}.

Inductive Exn : Type :=
| TypeError          (* a method called on a value that has none *)
| PrismaError        (* a rejected or failed database request *)
| TransportError.    (* the mail or SMS provider failed *)

(** What a run does that an observer outside the database can see, in
    order.  The [Call...] entries record that a function of the engine
    was entered, with its arguments. *)
Inductive Effect : Type :=
| CallTrigger (workspaceId : string) (trigger : AutomationTrigger)
              (context : Object)
| CallExecute (automation : Automation.t) (context : Object)
| CallSendEmail (payload : EmailPayload)
| EmailDelivered (payload : EmailPayload)
| CallSendSMS (payload : SMSPayload)
| SmsDelivered (payload : SMSPayload)
| SocketEmit (room event : string) (payload : Object)
| ConsoleError (message : string).

(** ** The world: database, process state and environment *)

Record World : Type := mkWorld {
  (* the database *)
  automationTable : list Automation.t;
  alertTable : list Alert.t;
  bookingTable : list Booking.t;
  formSubmissionTable : list FormSubmission.t;
  inventoryItemTable : list InventoryItem.t;
  (* the module-level [ioInstance]: false while it is null *)
  ioInstance : bool;
  (* the environment: process.env, the host's locale and time zone, the
     clock, and for the n-th request sent to the database or to a
     provider whether it fails *)
  env : string -> option string;
  toLocaleDateString : Time -> string;
  toLocaleTimeString : Time -> string;
  (* the host's time zone, as ECMAScript sees it: [LocalTZA(t, true)],
     the offset of local time from UTC in force at the instant [t], and
     [LocalTZA(t, false)], the offset to take for the local time [t] *)
  utcOffset : Time -> Z;
  localOffset : Time -> Z;
  now : Time;
  faults : nat -> bool;
  ticks : nat;
  (* what happened so far *)
  log : list Effect
}.

Definition set_alertTable (t : list Alert.t) (w : World) : World :=
  mkWorld (automationTable w) t (bookingTable w) (formSubmissionTable w)
          (inventoryItemTable w) (ioInstance w) (env w)
          (toLocaleDateString w) (toLocaleTimeString w)
          (utcOffset w) (localOffset w) (now w) (faults w)
          (ticks w) (log w).

Definition set_formSubmissionTable (t : list FormSubmission.t) (w : World)
  : World :=
  mkWorld (automationTable w) (alertTable w) (bookingTable w) t
          (inventoryItemTable w) (ioInstance w) (env w)
          (toLocaleDateString w) (toLocaleTimeString w)
          (utcOffset w) (localOffset w) (now w) (faults w)
          (ticks w) (log w).

Definition set_ioInstance (b : bool) (w : World) : World :=
  mkWorld (automationTable w) (alertTable w) (bookingTable w)
          (formSubmissionTable w) (inventoryItemTable w) b (env w)
          (toLocaleDateString w) (toLocaleTimeString w)
          (utcOffset w) (localOffset w) (now w) (faults w)
          (ticks w) (log w).

Definition set_ticks (n : nat) (w : World) : World :=
  mkWorld (automationTable w) (alertTable w) (bookingTable w)
          (formSubmissionTable w) (inventoryItemTable w) (ioInstance w)
          (env w) (toLocaleDateString w) (toLocaleTimeString w)
          (utcOffset w) (localOffset w) (now w)
          (faults w) n (log w).

Definition set_log (l : list Effect) (w : World) : World :=
  mkWorld (automationTable w) (alertTable w) (bookingTable w)
          (formSubmissionTable w) (inventoryItemTable w) (ioInstance w)
          (env w) (toLocaleDateString w) (toLocaleTimeString w)
          (utcOffset w) (localOffset w) (now w)
          (faults w) (ticks w) l.

(** ** Calendar days *)

(** date-fns' [addDays]: [if (!amount) return date;
    date.setDate(date.getDate() + amount)].  [setDate] works on the local
    time value (ECMA-262, LocalTime, MakeDay, MakeDate and UTC): it moves
    the local time by [amount] days of 86400000 ms and converts back
    with the offset the zone has for the new local time.  Where the
    zone's offset changes in between, the result is not [amount] times
    24 hours away.  Dates stay within the range a [Date] holds. *)
Definition addDays (w : World) (date : Time) (amount : Z) : Time :=
  if amount =? 0 then date
  else
    let local := date + utcOffset w date in
    let moved := local + amount * msPerDay in
    moved - localOffset w moved.

(** The host's zone keeps one offset. *)
Definition fixedOffset (w : World) : Prop :=
  exists o, (forall t, utcOffset w t = o) /\ (forall t, localOffset w t = o).

(** ** State and exceptions *)

Definition M (A : Type) : Type := World -> (Exn + A) * World.

Definition ret {A : Type} (a : A) : M A := fun w => (inr a, w).

Definition bind {A B : Type} (m : M A) (k : A -> M B) : M B :=
  fun w =>
    match m w with
    | (inl e, w') => (inl e, w')
    | (inr a, w') => k a w'
    end.

Definition throw {A : Type} (e : Exn) : M A := fun w => (inl e, w).

(** [try { m } catch (error) { h error }].  What [m] did before it threw
    stays done. *)
Definition tryCatch {A : Type} (m : M A) (h : Exn -> M A) : M A :=
  fun w =>
    match m w with
    | (inl e, w') => h e w'
    | r => r
    end.

Notation "x <- m ;; k" := (bind m (fun x => k))
  (at level 61, m at next level, right associativity).
Notation "m ;; k" := (bind m (fun _ => k))
  (at level 61, right associativity).

(** [for (const x of l) { await body(x) }] *)
Fixpoint forOf {A : Type} (l : list A) (body : A -> M unit) : M unit :=
  match l with
  | [] => ret tt
  | x :: l' => body x ;; forOf l' body
  end.

Definition liftE {A : Type} (r : Exn + A) : M A := fun w => (r, w).

Definition read {A : Type} (f : World -> A) : M A := fun w => (inr (f w), w).

Definition record (e : Effect) : M unit :=
  fun w => (inr tt, set_log (log w ++ [e])%list w).

Definition consoleError (message : string) : M unit :=
  record (ConsoleError message).

(** A request that leaves the process.  The environment decides whether
    it fails; a failed request has no effect. *)
Definition request {A : Type} (e : Exn) (op : M A) : M A :=
  fun w =>
    let w' := set_ticks (S (ticks w)) w in
    if faults w (ticks w) then (inl e, w') else op w'.

(** ** Prisma requests *)

(** [where: { workspaceId, trigger, isActive: true }] *)
Definition automationWhere (workspaceId : string) (trigger : AutomationTrigger)
  (a : Automation.t) : bool :=
  (Automation.workspaceId a =? workspaceId)%string
  && trigger_eqb (Automation.trigger a) trigger
  && Bool.eqb (Automation.isActive a) true.

Definition prisma_automation_findMany (workspaceId : string)
  (trigger : AutomationTrigger) : M (list Automation.t) :=
  request PrismaError
    (read (fun w => filter (automationWhere workspaceId trigger)
                           (automationTable w))).

(** The [data] of [prisma.alert.create], as the engine fills it. *)
Record AlertCreateInput : Type := mkAlertData {
  data_workspaceId : string;
  data_type : JsValue;
  data_priority : JsValue;
  data_title : JsValue;
  data_message : JsValue;
  data_linkTo : JsValue
}.

Definition parsePriority (v : JsValue) : option AlertPriority :=
  match v with
  | JsString s =>
      if (s =? "LOW")%string then Some LOW
      else if (s =? "MEDIUM")%string then Some MEDIUM
      else if (s =? "HIGH")%string then Some HIGH
      else None
  | _ => None
  end.

(** Modelled from the spec: the client checks [data] against the Alert
    model of the missing schema (strings for type, title and message, a
    priority of the enum, a string or null link) and builds the row. *)
Definition alertRow (createdAt : Time) (d : AlertCreateInput)
  : option Alert.t :=
  match data_type d, parsePriority (data_priority d),
        data_title d, data_message d with
  | JsString ty, Some p, JsString ti, JsString m =>
      match data_linkTo d with
      | JsString l =>
          Some (Alert.make (data_workspaceId d) ty p ti m (Some l) false
                           createdAt)
      | JsNull =>
          Some (Alert.make (data_workspaceId d) ty p ti m None false
                           createdAt)
      | _ => None
      end
  | _, _, _, _ => None
  end.

Definition prisma_alert_create (d : AlertCreateInput) : M unit :=
  fun w =>
    match alertRow (now w) d with
    | None => (inl PrismaError, w)
    | Some row =>
        request PrismaError
          (fun w' => (inr tt, set_alertTable (alertTable w' ++ [row])%list w'))
          w
    end.

(** [where: { workspaceId, type: 'LOW_INVENTORY', createdAt: { gte },
    message: { contains } }] *)
Definition recentAlertWhere (workspaceId : string) (since : Time)
  (name : string) (a : Alert.t) : bool :=
  (Alert.workspaceId a =? workspaceId)%string
  && (Alert.type a =? "LOW_INVENTORY")%string
  && (since <=? Alert.createdAt a)
  && includes name (Alert.message a).

Definition prisma_alert_findFirst (workspaceId : string) (since : Time)
  (name : string) : M (option Alert.t) :=
  request PrismaError
    (read (fun w => find (recentAlertWhere workspaceId since name)
                         (alertTable w))).

(** [where: { startTime: { gte, lte },
    status: { in: ['PENDING', 'CONFIRMED'] } }] *)
Definition bookingReminderWhere (gte lte : Time) (b : Booking.t) : bool :=
  (gte <=? Booking.startTime b)
  && (Booking.startTime b <=? lte)
  && existsb (bookingStatus_eqb (Booking.status b))
             [Booking_PENDING; Booking_CONFIRMED].

Definition prisma_booking_findMany (gte lte : Time) : M (list Booking.t) :=
  request PrismaError
    (read (fun w => filter (bookingReminderWhere gte lte) (bookingTable w))).

(** [where: { status: PENDING, createdAt: { lte: oneDayAgo } }] *)
Definition pendingFormWhere (oneDayAgo : Time) (s : FormSubmission.t) : bool :=
  formStatus_eqb (FormSubmission.status s) PENDING
  && (FormSubmission.createdAt s <=? oneDayAgo).

(** [where: { status: PENDING, dueDate: { lt: now } }]; a submission
    without due date matches no comparison. *)
Definition overdueFormWhere (now : Time) (s : FormSubmission.t) : bool :=
  formStatus_eqb (FormSubmission.status s) PENDING
  && match FormSubmission.dueDate s with
     | Some d => d <? now
     | None => false
     end.

Definition prisma_formSubmission_findMany
  (where_ : FormSubmission.t -> bool) : M (list FormSubmission.t) :=
  request PrismaError
    (read (fun w => filter where_ (formSubmissionTable w))).

(** [update({ where: { id }, data: { status } })]: rejected when no row
    has the id. *)
Definition prisma_formSubmission_update (id : string)
  (status : FormSubmissionStatus) : M unit :=
  request PrismaError
    (fun w =>
       if existsb (fun s => (FormSubmission.id s =? id)%string)
                  (formSubmissionTable w)
       then (inr tt,
             set_formSubmissionTable
               (map (fun s => if (FormSubmission.id s =? id)%string
                              then FormSubmission.withStatus status s
                              else s)
                    (formSubmissionTable w)) w)
       else (inl PrismaError, w)).

(** [where: { isActive: true, quantity: { lte: lowStockThreshold } }] *)
Definition lowStockWhere (i : InventoryItem.t) : bool :=
  Bool.eqb (InventoryItem.isActive i) true
  && (InventoryItem.quantity i <=? InventoryItem.lowStockThreshold i).

Definition prisma_inventoryItem_findMany : M (list InventoryItem.t) :=
  request PrismaError
    (read (fun w => filter lowStockWhere (inventoryItemTable w))).

(** ** The channels *)

(** Whichever provider [EMAIL_PROVIDER] selects (SendGrid or SMTP), the
    payload goes out in one request; a failure is logged and thrown
    again. *)
Definition sendEmail (payload : EmailPayload) : M unit :=
  record (CallSendEmail payload) ;;
  tryCatch
    (request TransportError (record (EmailDelivered payload)))
    (fun error => consoleError "Error sending email:" ;; throw error).

Definition smsProvider (w : World) : string :=
  match env w "SMS_PROVIDER" with
  | Some p => if (p =? "")%string then "twilio" else p
  | None => "twilio"
  end.

(** Twilio is the only provider that sends; with another value of
    [SMS_PROVIDER] the function returns without a request. *)
Definition sendSMS (payload : SMSPayload) : M unit :=
  record (CallSendSMS payload) ;;
  tryCatch
    (provider <- read smsProvider ;;
     if (provider =? "twilio")%string
     then request TransportError (record (SmsDelivered payload))
     else ret tt)
    (fun error => consoleError "Error sending SMS:" ;; throw error).

(** ** Templates *)

Definition placeholder (key : string) : string := "{{" ++ key ++ "}}".

(** The body of [Object.keys(context).forEach]: [result.replace] exists
    on strings only.  The pattern [new RegExp(`{{${key}}}`, 'g')] is
    taken as the literal text [{{key}}]: that is what it matches when the
    key is an [identifier].  For a key with characters that regular
    expressions read as operators the code matches other text or throws
    a SyntaxError; the statements about rendered text below are for
    contexts whose keys are identifiers. *)
Fixpoint replaceEach (ks : list string) (context : Object) (result : JsValue)
  : Exn + JsValue :=
  match ks with
  | [] => inr result
  | key :: ks' =>
      match result with
      | JsString s =>
          replaceEach ks' context
            (JsString
               (replaceAll (placeholder key)
                  (toString (or_else (get context key) (JsString "")))
                  s))
      | _ => inl TypeError
      end
  end.

Definition replaceVariables (template : JsValue) (context : Object)
  : Exn + JsValue :=
  replaceEach (keys context) context template.

(** ** Rule execution and dispatch *)

(** The line [executeAutomation] logs when it catches. *)
Definition executeError : Effect := ConsoleError "Error executing automation:".

(** The [data] a create-alert rule hands to Prisma. *)
Definition alertData (a : Automation.t) (context : Object)
  (title message : JsValue) : AlertCreateInput :=
  mkAlertData (Automation.workspaceId a)
              (get (Automation.config a) "alertType")
              (or_else (get (Automation.config a) "priority")
                       (JsString "MEDIUM"))
              title message
              (or_else (get context "linkTo") JsNull).

Definition alertEmit (a : Automation.t) (message : JsValue) : Effect :=
  SocketEmit ("workspace-" ++ Automation.workspaceId a) "new-alert"
             [("type", get (Automation.config a) "alertType");
              ("message", message)].


Definition executeAutomation (automation : Automation.t) (context : Object)
  : M unit :=
  record (CallExecute automation context) ;;
  tryCatch
    (let config := Automation.config automation in
     match Automation.action automation with
     | SEND_EMAIL =>
         if truthy (get context "email") then
           body <- liftE (replaceVariables (get config "body") context) ;;
           sendEmail
             (mkEmail (get context "email")
                      (or_else (get config "subject") (JsString "Notification"))
                      body)
         else ret tt
     | SEND_SMS =>
         if truthy (get context "phone") then
           message <- liftE (replaceVariables (get config "message") context) ;;
           sendSMS (mkSMS (get context "phone") message)
         else ret tt
     | CREATE_ALERT =>
         title <- liftE (replaceVariables (get config "title") context) ;;
         message <- liftE (replaceVariables (get config "message") context) ;;
         prisma_alert_create
           (mkAlertData (Automation.workspaceId automation)
                        (get config "alertType")
                        (or_else (get config "priority") (JsString "MEDIUM"))
                        title message
                        (or_else (get context "linkTo") JsNull)) ;;
         io <- read ioInstance ;;
         if io then
           message' <- liftE (replaceVariables (get config "message") context) ;;
           record (SocketEmit
                     ("workspace-" ++ Automation.workspaceId automation)
                     "new-alert"
                     [("type", get config "alertType"); ("message", message')])
         else ret tt
     end)
    (fun error => consoleError "Error executing automation:").

Definition triggerAutomation (workspaceId : string)
  (trigger : AutomationTrigger) (context : Object) : M unit :=
  record (CallTrigger workspaceId trigger context) ;;
  tryCatch
    (automations <- prisma_automation_findMany workspaceId trigger ;;
     forOf automations
       (fun automation => executeAutomation automation context))
    (fun error => consoleError "Error triggering automation:").

(** ** The scanners *)

Definition ofNullable (o : option string) : JsValue :=
  match o with
  | Some s => JsString s
  | None => JsNull
  end.

(** [`${first} ${last || ''}`.trim()] *)
Definition fullName (first last : JsValue) : string :=
  trim (toString first ++ " " ++ toString (or_else last (JsString ""))).

(** [c?.f] *)
Definition optField {A : Type} (c : option A) (f : A -> JsValue) : JsValue :=
  match c with
  | Some x => f x
  | None => JsUndefined
  end.

Definition bookingContext (dateString timeString : Time -> string)
  (booking : Booking.t) : Object :=
  let contact := Booking.contact booking in
  [ ("contactName",
     JsString (fullName
                 (optField contact (fun c => JsString (Contact.firstName c)))
                 (optField contact (fun c => ofNullable (Contact.lastName c)))));
    ("email", optField contact (fun c => ofNullable (Contact.email c)));
    ("phone", optField contact (fun c => ofNullable (Contact.phone c)));
    ("bookingType", optField (Booking.bookingType booking) JsString);
    ("bookingDate", JsString (dateString (Booking.startTime booking)));
    ("bookingTime", JsString (timeString (Booking.startTime booking))) ].

Definition checkBookingReminders : M unit :=
  tryCatch
    (today <- read now ;;
     tomorrow <- read (fun w => addDays w today 1) ;;
     dayAfter <- read (fun w => addDays w tomorrow 1) ;;
     upcomingBookings <- prisma_booking_findMany tomorrow dayAfter ;;
     dateString <- read toLocaleDateString ;;
     timeString <- read toLocaleTimeString ;;
     forOf upcomingBookings
       (fun booking =>
          triggerAutomation (Booking.workspaceId booking) BOOKING_REMINDER
            (bookingContext dateString timeString booking)))
    (fun error => consoleError "Error checking booking reminders:").

Definition formContext (submission : FormSubmission.t) : Object :=
  let contact := FormSubmission.contact submission in
  [ ("contactName",
     JsString (fullName (JsString (Contact.firstName contact))
                        (ofNullable (Contact.lastName contact))));
    ("email", ofNullable (Contact.email contact));
    ("phone", ofNullable (Contact.phone contact));
    ("formName", JsString (FormSubmission.formName submission)) ].

Definition checkPendingForms : M unit :=
  tryCatch
    (today <- read now ;;
     oneDayAgo <- read (fun w => addDays w today (-1)) ;;
     pendingForms <-
       prisma_formSubmission_findMany (pendingFormWhere oneDayAgo) ;;
     forOf pendingForms
       (fun submission =>
          match FormSubmission.booking submission with
          | Some booking =>
              triggerAutomation (Booking.workspaceId booking) FORM_PENDING
                (formContext submission)
          | None => ret tt
          end))
    (fun error => consoleError "Error checking pending forms:").

Definition checkOverdueForms : M unit :=
  tryCatch
    (now_ <- read now ;;
     overdueForms <-
       prisma_formSubmission_findMany (overdueFormWhere now_) ;;
     forOf overdueForms
       (fun submission =>
          prisma_formSubmission_update (FormSubmission.id submission) OVERDUE))
    (fun error => consoleError "Error checking overdue forms:").

Definition inventoryContext (item : InventoryItem.t) : Object :=
  [ ("itemName", JsString (InventoryItem.name item));
    ("quantity", JsNumber (InventoryItem.quantity item));
    ("threshold", JsNumber (InventoryItem.lowStockThreshold item));
    ("linkTo", JsString ("/inventory/" ++ InventoryItem.id item)) ].

(** The body of the loop over the low-stock items. *)
Definition checkInventoryItem (item : InventoryItem.t) : M unit :=
  today <- read now ;;
  oneDayAgo <- read (fun w => addDays w today (-1)) ;;
  recentAlert <-
    prisma_alert_findFirst (InventoryItem.workspaceId item)
      oneDayAgo (InventoryItem.name item) ;;
  match recentAlert with
  | None =>
      triggerAutomation (InventoryItem.workspaceId item) INVENTORY_LOW
        (inventoryContext item)
  | Some _ => ret tt
  end.

Definition checkInventoryLevels : M unit :=
  tryCatch
    (lowStockItems <- prisma_inventoryItem_findMany ;;
     forOf lowStockItems checkInventoryItem)
    (fun error => consoleError "Error checking inventory levels:").

(** ** The scheduler: [startAutomationEngine] stores the socket server
    and registers the two jobs below with cron. *)

Definition startAutomationEngine : M unit :=
  fun w => (inr tt, set_ioInstance true w).

(** [*/15 * * * *] *)
Definition every15Minutes : M unit :=
  checkBookingReminders ;; checkPendingForms ;; checkInventoryLevels.

(** [0 * * * *] *)
Definition everyHour : M unit := checkOverdueForms.

(** The rules a dispatch selects. *)
Definition matching (workspaceId : string) (trigger : AutomationTrigger)
  (w : World) : list Automation.t :=
  filter (automationWhere workspaceId trigger) (automationTable w).

(** The bookings a reminder scan started in [w] asks for. *)
Definition reminderBookings (w : World) : list Booking.t :=
  filter (bookingReminderWhere (addDays w (now w) 1)
                               (addDays w (addDays w (now w) 1) 1))
         (bookingTable w).

(** What the reminder scan dispatches for a booking. *)
Definition reminderDispatch (w : World) (b : Booking.t)
  : string * AutomationTrigger * Object :=
  (Booking.workspaceId b, BOOKING_REMINDER,
   bookingContext (toLocaleDateString w) (toLocaleTimeString w) b).

(** The window as the specification words it, for comparison with
    [bookingReminderWhere]: from the start of tomorrow (date-fns'
    [startOfDay], here in UTC) to the start of the day after, the end
    excluded. *)
Definition startOfDay (t : Time) : Time := t - t mod msPerDay.

Definition specReminderWindow (now : Time) (b : Booking.t) : bool :=
  (startOfDay now + msPerDay <=? Booking.startTime b)
  && (Booking.startTime b <? startOfDay now + 2 * msPerDay).

(** The submissions with one of the ids [ids] set to OVERDUE. *)
Definition markOverdue (ids : list string) (s : FormSubmission.t)
  : FormSubmission.t :=
  if existsb (String.eqb (FormSubmission.id s)) ids
  then FormSubmission.withStatus OVERDUE s
  else s.

(** The line the overdue scan logs when it catches. *)
Definition overdueError : Effect := ConsoleError "Error checking overdue forms:".

(** The body of the overdue scan's loop. *)
Definition updateOverdue (s : FormSubmission.t) : M unit :=
  prisma_formSubmission_update (FormSubmission.id s) OVERDUE.

(** Whether the table has a row with the id of [s]. *)
Definition hasRow (table : list FormSubmission.t) (s : FormSubmission.t)
  : bool :=
  existsb (fun x => (FormSubmission.id x =? FormSubmission.id s)%string) table.

(** No request fails, ever. *)
Definition faultFree (w : World) : Prop := forall n, faults w n = false.

(** Ids are primary keys. *)
Definition uniqueIds (table : list FormSubmission.t) : Prop :=
  NoDup (map FormSubmission.id table).

(** [s'] is [s] but for its status. *)
Definition sameButStatus (s s' : FormSubmission.t) : Prop :=
  FormSubmission.id s' = FormSubmission.id s
  /\ FormSubmission.createdAt s' = FormSubmission.createdAt s
  /\ FormSubmission.dueDate s' = FormSubmission.dueDate s
  /\ FormSubmission.formName s' = FormSubmission.formName s
  /\ FormSubmission.contact s' = FormSubmission.contact s
  /\ FormSubmission.booking s' = FormSubmission.booking s.

(** The submission has a due date before [now]. *)
Definition pastDue (now : Time) (s : FormSubmission.t) : Prop :=
  exists due, FormSubmission.dueDate s = Some due /\ due < now.

(** What one run of the overdue scan is to do to a submission. *)
Definition overdueTransition (now : Time) (s : FormSubmission.t)
  : FormSubmission.t :=
  if overdueFormWhere now s then FormSubmission.withStatus OVERDUE s else s.

(** The alert that makes the low-inventory scan pass over [item], if
    the table of [w] has one. *)
Definition recentAlert (w : World) (item : InventoryItem.t) : option Alert.t :=
  find (recentAlertWhere (InventoryItem.workspaceId item)
                         (addDays w (now w) (-1)) (InventoryItem.name item))
       (alertTable w).

(** What the low-inventory scan dispatches for an item. *)
Definition inventoryDispatch (item : InventoryItem.t)
  : string * AutomationTrigger * Object :=
  (InventoryItem.workspaceId item, INVENTORY_LOW, inventoryContext item).

(** ** Reading a run's log *)

(** What [w'] logged after [w]. *)
Definition newEffects (w w' : World) : list Effect :=
  skipn (List.length (log w)) (log w').

Definition executions (l : list Effect) : list (Automation.t * Object) :=
  flat_map (fun e => match e with
                     | CallExecute a c => [(a, c)]
                     | _ => []
                     end) l.

Definition dispatches (l : list Effect)
  : list (string * AutomationTrigger * Object) :=
  flat_map (fun e => match e with
                     | CallTrigger ws t c => [(ws, t, c)]
                     | _ => []
                     end) l.

Definition emailCalls (l : list Effect) : list EmailPayload :=
  flat_map (fun e => match e with
                     | CallSendEmail p => [p]
                     | _ => []
                     end) l.

Definition smsCalls (l : list Effect) : list SMSPayload :=
  flat_map (fun e => match e with
                     | CallSendSMS p => [p]
                     | _ => []
                     end) l.

Definition consoleErrors (l : list Effect) : list string :=
  flat_map (fun e => match e with
                     | ConsoleError m => [m]
                     | _ => []
                     end) l.

Definition socketEmits (l : list Effect) : list (string * string * Object) :=
  flat_map (fun e => match e with
                     | SocketEmit room event payload => [(room, event, payload)]
                     | _ => []
                     end) l.

Definition emailDeliveries (l : list Effect) : list EmailPayload :=
  flat_map (fun e => match e with
                     | EmailDelivered p => [p]
                     | _ => []
                     end) l.

Definition smsDeliveries (l : list Effect) : list SMSPayload :=
  flat_map (fun e => match e with
                     | SmsDelivered p => [p]
                     | _ => []
                     end) l.

(** What the pending-form scan dispatches for a submission: nothing for
    one without booking. *)
Definition pendingDispatch (submission : FormSubmission.t)
  : list (string * AutomationTrigger * Object) :=
  match FormSubmission.booking submission with
  | Some booking =>
      [(Booking.workspaceId booking, FORM_PENDING, formContext submission)]
  | None => []
  end.

(** The body of the pending-form scan's loop. *)
Definition remindPendingForm (submission : FormSubmission.t) : M unit :=
  match FormSubmission.booking submission with
  | Some booking =>
      triggerAutomation (Booking.workspaceId booking) FORM_PENDING
        (formContext submission)
  | None => ret tt
  end.

(** The submissions a pending-form scan started in [w] asks for. *)
Definition pendingForms (w : World) : list FormSubmission.t :=
  filter (pendingFormWhere (addDays w (now w) (-1))) (formSubmissionTable w).

(** ** The socket server of [index.ts] *)

(** A connected client: its id and the rooms it is in.  A socket starts
    in the room named by its own id. *)
Record Socket : Type := mkSocket {
  socketId : string;
  rooms : list string
}.

Definition connect (id : string) : Socket := mkSocket id [id].

Definition workspaceRoom (workspaceId : string) : string :=
  "workspace-" ++ workspaceId.

(** The handler of ['join-workspace']. *)
Definition joinWorkspace (s : Socket) (workspaceId : string) : Socket :=
  mkSocket (socketId s) (workspaceRoom workspaceId :: rooms s).

(** A client that sent the given ['join-workspace'] messages, in order. *)
Definition joined (id : string) (workspaceIds : list string) : Socket :=
  fold_left joinWorkspace workspaceIds (connect id).

(** [io.to(room).emit(...)] reaches the sockets that are in the room. *)
Definition receives (s : Socket) (e : Effect) : bool :=
  match e with
  | SocketEmit room _ _ => existsb (String.eqb room) (rooms s)
  | _ => false
  end.

(** Running a computation: its outcome and the world it leaves. *)
Definition outcome {A : Type} (m : M A) (w : World) : Exn + A := fst (m w).
Definition after {A : Type} (m : M A) (w : World) : World := snd (m w).

(** ** Frames *)

(** The world [w] after [n] more requests, with the alert rows [rows]
    appended and the effects [d] logged; nothing else changed. *)
Definition advance (rows : list Alert.t) (n : nat) (d : list Effect)
  (w : World) : World :=
  mkWorld (automationTable w) (alertTable w ++ rows)%list (bookingTable w)
          (formSubmissionTable w) (inventoryItemTable w) (ioInstance w)
          (env w) (toLocaleDateString w) (toLocaleTimeString w)
          (utcOffset w) (localOffset w) (now w)
          (faults w) (ticks w + n)%nat (log w ++ d)%list.

(** The world a low-inventory scan started in [w] has reached when its
    query for the items went through and it has handled the items
    [pre]. *)
Definition afterItems (pre : list InventoryItem.t) (w : World) : World :=
  after (forOf pre checkInventoryItem) (advance [] 1 [] w).

(** [w'] comes from [w] by appending alerts, sending requests and
    logging effects only. *)
Definition steady (w w' : World) : Prop :=
  exists rows n d, w' = advance rows n d w.

(** A computation that does no more than that, from any world. *)
Definition steadyM {A : Type} (m : M A) : Prop :=
  forall w, steady w (after m w).


(** An effect that, if it is a socket message, is a ['new-alert'] for
    the room of [workspaceId]. *)
Definition emitScoped (workspaceId : string) (e : Effect) : Prop :=
  match e with
  | SocketEmit room event _ =>
      room = workspaceRoom workspaceId /\ event = "new-alert"
  | _ => True
  end.

(** [w'] comes from [w] by a run that added alerts of [workspaceId] only
    and sent socket messages to its room only. *)
Definition scoped (workspaceId : string) (w w' : World) : Prop :=
  exists rows n d,
    w' = advance rows n d w
    /\ Forall (fun r => Alert.workspaceId r = workspaceId) rows
    /\ Forall (emitScoped workspaceId) d.

(** The socket message that announces an alert row. *)
Definition announcement (r : Alert.t) : string * string * Object :=
  (workspaceRoom (Alert.workspaceId r), "new-alert",
   [("type", JsString (Alert.type r));
    ("message", JsString (Alert.message r))]).

(** [w'] comes from [w] by a run whose socket messages are the
    announcements of the alerts it added, in order, when the socket
    server is set ([b]), and that sent none otherwise. *)
Definition announced (b : bool) (w w' : World) : Prop :=
  exists rows n d,
    w' = advance rows n d w
    /\ socketEmits d = if b then map announcement rows else [].

(** The calls of the e-mail channel a rule makes for a context. *)
Definition emailPayloads (a : Automation.t) (context : Object)
  : list EmailPayload :=
  match Automation.action a with
  | SEND_EMAIL =>
      if truthy (get context "email") then
        match replaceVariables (get (Automation.config a) "body") context with
        | inr body =>
            [mkEmail (get context "email")
                     (or_else (get (Automation.config a) "subject")
                              (JsString "Notification"))
                     body]
        | inl _ => []
        end
      else []
  | _ => []
  end.

End Engine.

(* ================================================================== *)
(** * Templates as text and holes                                      *)
(* ================================================================== *)

(** The view of a template the specification takes: literal text
    interleaved with placeholders.  Used to state what
    [replaceVariables] computes; the engine itself only sees the
    flattened string. *)
Module Template.
Import Js Engine.

Inductive Segment : Type :=
| Lit (text : string)
| Hole (key : string).

Definition isBrace (c : ascii) : bool :=
  Ascii.eqb c "{" || Ascii.eqb c "}".

Definition noBrace (s : string) : bool :=
  allChars (fun c => negb (isBrace c)) s.

Definition noDollar (s : string) : bool :=
  allChars (fun c => negb (Ascii.eqb c "$")) s.

Definition segmentText (seg : Segment) : string :=
  match seg with
  | Lit t => t
  | Hole k => placeholder k
  end.

Fixpoint flatten (segs : list Segment) : string :=
  match segs with
  | [] => EmptyString
  | seg :: segs' => segmentText seg ++ flatten segs'
  end.

Definition wellFormedSegment (seg : Segment) : bool :=
  match seg with
  | Lit t => noBrace t
  | Hole k => noBrace k
  end.

Definition wellFormed (segs : list Segment) : bool :=
  forallb wellFormedSegment segs.

(** The text a pass of [replaceVariables] puts in place of [{{key}}]:
    [String(context[key] || '')]. *)
Definition inserted (context : Object) (key : string) : string :=
  toString (or_else (get context key) (JsString "")).

(** Holes of the keys [ks] filled from the context, the others left. *)
Definition fillKeys (ks : list string) (context : Object) (seg : Segment)
  : Segment :=
  match seg with
  | Lit t => Lit t
  | Hole k =>
      if existsb (String.eqb k) ks then Lit (inserted context k) else Hole k
  end.

Definition instantiate (context : Object) (segs : list Segment)
  : list Segment :=
  map (fillKeys (keys context) context) segs.

(** Every value the context can insert is free of braces and dollars. *)
Definition plainValues (context : Object) : bool :=
  forallb (fun k => noBrace (inserted context k)
                    && noDollar (inserted context k)) (keys context).

End Template.

(* ================================================================== *)
(** * Example data                                                     *)
(* ================================================================== *)

Module Scenario.
Import Js Engine.

(** A world with empty tables, a socket server, no fault, a host on
    UTC, at time [t]. *)
Definition emptyWorld (t : Time) : World :=
  mkWorld [] [] [] [] [] true (fun _ => None)
          (fun _ => "1/1/2026") (fun _ => "9:00:00 AM")
          (fun _ => 0) (fun _ => 0) t
          (fun _ => false) 0 [].

Definition withAutomations (l : list Automation.t) (w : World) : World :=
  mkWorld l (alertTable w) (bookingTable w) (formSubmissionTable w)
          (inventoryItemTable w) (ioInstance w) (env w)
          (toLocaleDateString w) (toLocaleTimeString w)
          (utcOffset w) (localOffset w) (now w) (faults w)
          (ticks w) (log w).

Definition withBookings (l : list Booking.t) (w : World) : World :=
  mkWorld (automationTable w) (alertTable w) l (formSubmissionTable w)
          (inventoryItemTable w) (ioInstance w) (env w)
          (toLocaleDateString w) (toLocaleTimeString w)
          (utcOffset w) (localOffset w) (now w) (faults w)
          (ticks w) (log w).

Definition withInventory (l : list InventoryItem.t) (w : World) : World :=
  mkWorld (automationTable w) (alertTable w) (bookingTable w)
          (formSubmissionTable w) l (ioInstance w) (env w)
          (toLocaleDateString w) (toLocaleTimeString w)
          (utcOffset w) (localOffset w) (now w) (faults w)
          (ticks w) (log w).

Definition withFaults (f : nat -> bool) (w : World) : World :=
  mkWorld (automationTable w) (alertTable w) (bookingTable w)
          (formSubmissionTable w) (inventoryItemTable w) (ioInstance w)
          (env w) (toLocaleDateString w) (toLocaleTimeString w)
          (utcOffset w) (localOffset w) (now w) f
          (ticks w) (log w).

(** Two workspaces with identically named rules, and a disabled rule. *)
Definition welcomeA : Automation.t :=
  Automation.make "a1" "A" "Welcome" CONTACT_CREATED CREATE_ALERT
    [("alertType", JsString "NEW_CONTACT"); ("title", JsString "New contact");
     ("message", JsString "{{contactName}} joined")] true.

Definition welcomeB : Automation.t :=
  Automation.make "b1" "B" "Welcome" CONTACT_CREATED CREATE_ALERT
    [("alertType", JsString "NEW_CONTACT"); ("title", JsString "New contact");
     ("message", JsString "{{contactName}} joined")] true.

Definition welcomeOff : Automation.t :=
  Automation.make "a2" "A" "Welcome SMS" CONTACT_CREATED SEND_SMS
    [("message", JsString "Welcome {{contactName}}")] false.

Definition samContext : Object :=
  [("contactName", JsString "Sam"); ("email", JsString "sam@example.com");
   ("phone", JsString "+15550100")].

Definition twoWorkspaces : World :=
  withAutomations [welcomeA; welcomeB; welcomeOff] (emptyWorld 0).

(** An e-mail rule followed by an alert rule for the same trigger; the
    second request of the run (the mail transport) fails. *)
Definition mailRule : Automation.t :=
  Automation.make "m1" "A" "Welcome mail" CONTACT_CREATED SEND_EMAIL
    [("subject", JsString "Welcome {{contactName}}");
     ("body", JsString "Hi {{contactName}}")] true.

Definition mailThenAlert : World :=
  withFaults (fun n => Nat.eqb n 1)
    (withAutomations [mailRule; welcomeA] (emptyWorld 0)).

Definition welcomeAlert : Alert.t :=
  Alert.make "A" "NEW_CONTACT" MEDIUM "New contact" "Sam joined" None false 0.

(** Noon of day 0, with a booking at 06:00 of day 1 (18 hours ahead). *)
Definition earlyBooking : Booking.t :=
  Booking.make "bk1" "A" (30 * msPerHour) Booking_PENDING None None.

Definition noonWorld : World :=
  withBookings [earlyBooking] (emptyWorld (12 * msPerHour)).

(** 20:00 of day 0, with a booking 30 hours ahead (02:00 of day 2). *)
Definition lateBooking : Booking.t :=
  Booking.make "bk2" "A" (50 * msPerHour) Booking_CONFIRMED None None.

Definition eveningWorld : World :=
  withBookings [lateBooking] (emptyWorld (20 * msPerHour)).

Definition withZone (utc local : Time -> Z) (w : World) : World :=
  mkWorld (automationTable w) (alertTable w) (bookingTable w)
          (formSubmissionTable w) (inventoryItemTable w) (ioInstance w)
          (env w) (toLocaleDateString w) (toLocaleTimeString w)
          utc local (now w) (faults w) (ticks w) (log w).

(** A zone that changes its offset from [before] to [later] at the
    instant [at_].  A local time that the change skips or repeats takes
    the offset in force before the change. *)
Definition zoneChange (at_ : Time) (before later : Z) (w : World) : World :=
  withZone (fun t => if t <? at_ then before else later)
           (fun t => if t <? at_ + Z.max before later then before else later)
           w.

(** 20:00 UTC of day 0 on a host five hours behind UTC whose clocks go
    forward an hour at 07:00 UTC of day 1, with a booking 23 hours
    ahead. *)
Definition shortDayBooking : Booking.t :=
  Booking.make "bk9" "A" (43 * msPerHour) Booking_PENDING None None.

Definition shortDayWorld : World :=
  zoneChange (31 * msPerHour) (-5 * msPerHour) (-4 * msPerHour)
    (withBookings [shortDayBooking] (emptyWorld (20 * msPerHour))).

Definition withForms (l : list FormSubmission.t) (w : World) : World :=
  mkWorld (automationTable w) (alertTable w) (bookingTable w) l
          (inventoryItemTable w) (ioInstance w) (env w)
          (toLocaleDateString w) (toLocaleTimeString w)
          (utcOffset w) (localOffset w) (now w) (faults w)
          (ticks w) (log w).


(** Day 10, 09:00.  Four submissions: due yesterday, due tomorrow,
    without due date, and completed with a past due date. *)
Definition day10 : Time := 10 * msPerDay + 9 * msPerHour.

Definition sam : Contact.t :=
  Contact.make "Sam" None (Some "sam@example.com") None.

Definition dueYesterday : FormSubmission.t :=
  FormSubmission.make "f1" PENDING (day10 - 3 * msPerDay)
    (Some (day10 - msPerDay)) "Intake" sam None.

Definition dueTomorrow : FormSubmission.t :=
  FormSubmission.make "f2" PENDING (day10 - 3 * msPerDay)
    (Some (day10 + msPerDay)) "Intake" sam None.

Definition noDueDate : FormSubmission.t :=
  FormSubmission.make "f3" PENDING (day10 - 3 * msPerDay) None "Intake" sam
    None.

Definition completedLate : FormSubmission.t :=
  FormSubmission.make "f4" COMPLETED (day10 - 3 * msPerDay)
    (Some (day10 - msPerDay)) "Intake" sam None.

Definition formsWorld : World :=
  withForms [dueYesterday; dueTomorrow; noDueDate; completedLate]
            (emptyWorld day10).

(** The spec's end-to-end rule, with a message that names the item. *)
Definition lowStockRule : Automation.t :=
  Automation.make "r1" "W" "Low stock" INVENTORY_LOW CREATE_ALERT
    [("alertType", JsString "LOW_INVENTORY");
     ("title", JsString "{{itemName}} low");
     ("message", JsString "Only {{quantity}} {{itemName}} left")] true.

Definition gloves : InventoryItem.t :=
  InventoryItem.make "i1" "W" "Gloves" 3 10 true.

Definition glovesAlert (createdAt : Time) : Alert.t :=
  Alert.make "W" "LOW_INVENTORY" MEDIUM "Gloves low" "Only 3 Gloves left"
             (Some "/inventory/i1") false createdAt.




(** The rule of the spec's end-to-end scenario: its message does not
    name the item. *)
Definition thresholdRule : Automation.t :=
  Automation.make "r2" "W" "Low stock" INVENTORY_LOW CREATE_ALERT
    [("alertType", JsString "LOW_INVENTORY");
     ("title", JsString "{{itemName}} low");
     ("message",
      JsString "Only {{quantity}} left (threshold {{threshold}})")] true.

Definition thresholdWorld : World :=
  withInventory [gloves] (withAutomations [thresholdRule] (emptyWorld day10)).

Definition thresholdAlert : Alert.t :=
  Alert.make "W" "LOW_INVENTORY" MEDIUM "Gloves low"
             "Only 3 left (threshold 10)" (Some "/inventory/i1") false day10.

(** An e-mail rule without subject. *)
Definition plainMailRule : Automation.t :=
  Automation.make "m2" "A" "Reminder" BOOKING_REMINDER SEND_EMAIL
    [("body", JsString "See you on {{bookingDate}}")] true.

Definition reminderContext : Object :=
  [("email", JsString "sam@example.com"); ("bookingDate", JsString "1/1/2026")].

(** An e-mail rule whose configuration has no body. *)
Definition noBodyRule : Automation.t :=
  Automation.make "m3" "A" "No body" CONTACT_CREATED SEND_EMAIL
    [("subject", JsString "Hello")] true.

(** Day 10: a pending submission of two days ago with a booking, one
    without booking, and one created an hour ago. *)
Definition samBooking : Booking.t :=
  Booking.make "bk3" "A" (day10 + msPerDay) Booking_CONFIRMED (Some sam)
               (Some "Consultation").

Definition oldWithBooking : FormSubmission.t :=
  FormSubmission.make "f5" PENDING (day10 - 2 * msPerDay) None "Intake" sam
    (Some samBooking).

Definition oldWithoutBooking : FormSubmission.t :=
  FormSubmission.make "f6" PENDING (day10 - 2 * msPerDay) None "Intake" sam
    None.

Definition freshWithBooking : FormSubmission.t :=
  FormSubmission.make "f7" PENDING (day10 - msPerHour) None "Intake" sam
    (Some samBooking).

Definition pendingWorld : World :=
  withForms [oldWithBooking; oldWithoutBooking; freshWithBooking]
            (emptyWorld day10).

Definition masks : InventoryItem.t :=
  InventoryItem.make "i2" "W" "Masks" 0 5 true.

(** Two low-stock items without alert and one rule; the fifth request of
    a scan fails: the guard query of the second item, after the query for
    the items and the first item's guard query, rule query and alert
    insertion. *)
Definition secondGuardFailsWorld : World :=
  withFaults (fun n => Nat.eqb n 4)
    (withInventory [gloves; masks]
       (withAutomations [lowStockRule] (emptyWorld day10))).

(** A confirmed booking of Sam's, 30 hours ahead of 20:00 of day 0, and
    an e-mail rule for reminders in its workspace. *)
Definition samLateBooking : Booking.t :=
  Booking.make "bk4" "A" (50 * msPerHour) Booking_CONFIRMED (Some sam)
               (Some "Consultation").

Definition reminderWorld : World :=
  withAutomations [plainMailRule]
    (withBookings [samLateBooking] (emptyWorld (20 * msPerHour))).

(** A context without contact details. *)
Definition anonymousContext : Object := [("contactName", JsString "Sam")].

End Scenario.

(* ================================================================== *)
(** * Properties                                                       *)
(* ================================================================== *)

Import Js Engine Template Scenario.

(** ** Strings *)



Lemma append_assoc (a b c : string) : ((a ++ b) ++ c = a ++ (b ++ c))%string.
Proof. induction a as [|x a IH]; simpl; [reflexivity | now rewrite IH]. Qed.

Lemma append_empty_r (a : string) : (a ++ "")%string = a.
Proof. induction a as [|x a IH]; simpl; [reflexivity | now rewrite IH]. Qed.

Lemma startsWith_append (pat t : string) : startsWith pat (pat ++ t) = true.
Proof.
  induction pat as [|p pat IH]; simpl; [reflexivity|].
  now rewrite Ascii.eqb_refl, IH.
Qed.

Lemma drop_append (u t : string) : drop (String.length u) (u ++ t) = t.
Proof. induction u as [|x u IH]; simpl; [reflexivity | exact IH]. Qed.

Lemma getSubstitution_noDollar (m b a rep : string) :
  noDollar rep = true -> getSubstitution m b a rep = rep.
Proof.
  induction rep as [|c rep IH]; simpl; [reflexivity|].
  intros H. apply andb_true_iff in H as [Hc Hr].
  apply negb_true_iff in Hc. rewrite Hc. now rewrite IH.
Qed.

(** Passing over text in which no match can start. *)
Lemma replaceFrom_pass (p0 : ascii) (pat' rep u t b : string) :
  allChars (fun c => negb (Ascii.eqb p0 c)) u = true ->
  replaceFrom (String p0 pat') rep b O (u ++ t)
  = (u ++ replaceFrom (String p0 pat') rep (b ++ u) O t)%string.
Proof.
  revert b. induction u as [|c u IH]; intros b H.
  - simpl. now rewrite append_empty_r.
  - simpl in H. apply andb_true_iff in H as [Hc Hu].
    apply negb_true_iff in Hc.
    change ((String c u ++ t)%string) with (String c (u ++ t)).
    cbn [replaceFrom startsWith]. rewrite Hc. cbn [andb].
    rewrite (IH _ Hu). rewrite append_assoc. reflexivity.
Qed.

(** Passing over the rest of a match. *)
Lemma replaceFrom_skip (pat rep u t b : string) :
  replaceFrom pat rep b (String.length u) (u ++ t)
  = replaceFrom pat rep (b ++ u) O t.
Proof.
  revert b. induction u as [|c u IH]; intros b.
  - simpl. now rewrite append_empty_r.
  - simpl. rewrite IH, append_assoc. reflexivity.
Qed.

(** At a match: the substitution, then the scan resumes behind it. *)
Lemma replaceFrom_match (p0 : ascii) (pat' rep t b : string) :
  replaceFrom (String p0 pat') rep b O (String p0 pat' ++ t)
  = (getSubstitution (String p0 pat') b t rep
     ++ replaceFrom (String p0 pat') rep (b ++ String p0 pat') O t)%string.
Proof.
  change ((String p0 pat' ++ t)%string) with (String p0 (pat' ++ t)).
  cbn [replaceFrom].
  change (String p0 (pat' ++ t)) with ((String p0 pat' ++ t)%string) at 1 2.
  rewrite startsWith_append, drop_append.
  cbn [String.length]. rewrite Nat.sub_1_r. cbn [Nat.pred].
  rewrite replaceFrom_skip, append_assoc. reflexivity.
Qed.

Lemma replaceFrom_absent (pat rep s b : string) :
  includes pat s = false -> replaceFrom pat rep b O s = s.
Proof.
  revert b. induction s as [|c s IH]; intros b H; [reflexivity|].
  cbn [includes] in H. apply orb_false_iff in H as [H0 H1].
  cbn [replaceFrom]. rewrite H0. now rewrite IH.
Qed.

(** ** Placeholders *)

Lemma noBrace_cons (c : ascii) (s : string) :
  noBrace (String c s) = true ->
  Ascii.eqb c "{" = false /\ Ascii.eqb c "}" = false /\ noBrace s = true.
Proof.
  unfold noBrace, isBrace. cbn [allChars]. intros H.
  apply andb_true_iff in H as [Hc Hs].
  apply negb_true_iff, orb_false_iff in Hc as [H1 H2]. auto.
Qed.

Lemma placeholder_unfold (k t : string) :
  (placeholder k ++ t)%string
  = String "{" (String "{" ((k ++ "}}") ++ t)).
Proof. reflexivity. Qed.

(** Two placeholders that agree from their start name the same key. *)
Lemma key_prefix_inj (k k' t : string) :
  noBrace k = true -> noBrace k' = true ->
  startsWith (k ++ "}}") ((k' ++ "}}") ++ t) = true -> k = k'.
Proof.
  revert k'. induction k as [|c k IH]; intros [|c' k'] Hk Hk' H.
  - reflexivity.
  - apply noBrace_cons in Hk' as (_ & Hc & _).
    cbn [append startsWith] in H. apply andb_true_iff in H as [H _].
    rewrite Ascii.eqb_sym in H. congruence.
  - apply noBrace_cons in Hk as (_ & Hc & _).
    cbn [append startsWith] in H. apply andb_true_iff in H as [H _].
    congruence.
  - apply noBrace_cons in Hk as (_ & _ & Hk).
    apply noBrace_cons in Hk' as (_ & _ & Hk').
    cbn [append startsWith] in H. apply andb_true_iff in H as [Hc H].
    apply Ascii.eqb_eq in Hc. subst c'. f_equal. now apply IH.
Qed.

Lemma startsWith_placeholder (k k' t : string) :
  noBrace k = true -> noBrace k' = true ->
  startsWith (placeholder k) (placeholder k' ++ t) = true -> k = k'.
Proof.
  intros Hk Hk' H. rewrite placeholder_unfold in H.
  unfold placeholder in H. cbn [append startsWith] in H.
  rewrite Ascii.eqb_refl in H. cbn [andb] in H.
  now apply (key_prefix_inj k k' t).
Qed.

(** Behind the first brace of a placeholder no placeholder starts. *)
Lemma no_match_inside (k k' t : string) :
  noBrace k' = true ->
  startsWith (placeholder k) (String "{" ((k' ++ "}}") ++ t)) = false.
Proof.
  intros Hk'. unfold placeholder. cbn [append startsWith].
  rewrite Ascii.eqb_refl. cbn [andb].
  destruct k' as [|c k'].
  - reflexivity.
  - apply noBrace_cons in Hk' as (Hc & _ & _).
    cbn [append startsWith]. rewrite Ascii.eqb_sym, Hc. reflexivity.
Qed.

Lemma key_tail_no_open (k : string) :
  noBrace k = true ->
  allChars (fun c => negb (Ascii.eqb "{" c)) (k ++ "}}") = true.
Proof.
  induction k as [|c k IH]; intros H; [reflexivity|].
  apply noBrace_cons in H as (Hc & _ & Hk).
  cbn [append allChars]. rewrite Ascii.eqb_sym, Hc. cbn. now apply IH.
Qed.

Lemma noBrace_no_open (s : string) :
  noBrace s = true ->
  allChars (fun c => negb (Ascii.eqb "{" c)) s = true.
Proof.
  induction s as [|c s IH]; intros H; [reflexivity|].
  apply noBrace_cons in H as (Hc & _ & Hs).
  cbn [allChars]. rewrite Ascii.eqb_sym, Hc. cbn. now apply IH.
Qed.

(** A pass for the key [k] leaves the placeholder of another key. *)
Lemma replaceFrom_other_hole (k k' rep t b : string) :
  noBrace k = true -> noBrace k' = true -> k <> k' ->
  replaceFrom (placeholder k) rep b O (placeholder k' ++ t)
  = (placeholder k'
     ++ replaceFrom (placeholder k) rep (b ++ placeholder k') O t)%string.
Proof.
  intros Hk Hk' Hne.
  assert (H0 : startsWith (placeholder k) (placeholder k' ++ t) = false).
  { destruct (startsWith (placeholder k) (placeholder k' ++ t)) eqn:E;
      [|reflexivity].
    exfalso. apply Hne. now apply (startsWith_placeholder k k' t). }
  rewrite placeholder_unfold in H0 |- *.
  cbn [replaceFrom]. rewrite H0.
  rewrite (no_match_inside k k' t Hk').
  change (placeholder k) with (String "{" (String "{" (k ++ "}}"))).
  rewrite replaceFrom_pass by now apply key_tail_no_open.
  rewrite (placeholder_unfold k'), !append_assoc. reflexivity.
Qed.

(** A pass for the key [k] fills its own placeholder. *)
Lemma replaceFrom_own_hole (k rep t b : string) :
  noDollar rep = true ->
  replaceFrom (placeholder k) rep b O (placeholder k ++ t)
  = (rep ++ replaceFrom (placeholder k) rep (b ++ placeholder k) O t)%string.
Proof.
  intros Hrep.
  change (placeholder k) with (String "{" (String "{" (k ++ "}}"))).
  rewrite replaceFrom_match, getSubstitution_noDollar by assumption.
  reflexivity.
Qed.

(** One pass over a well-formed template: the holes of [k] are filled,
    everything else is kept. *)
Lemma replaceFrom_segments (k rep : string) (segs : list Segment) (b : string) :
  noBrace k = true -> noDollar rep = true -> wellFormed segs = true ->
  replaceFrom (placeholder k) rep b O (flatten segs)
  = flatten (map (fun seg => match seg with
                             | Lit t => Lit t
                             | Hole k' => if (k' =? k)%string then Lit rep
                                          else Hole k'
                             end) segs).
Proof.
  intros Hk Hrep. revert b.
  induction segs as [|seg segs IH]; intros b Hwf; [reflexivity|].
  cbn [wellFormed forallb] in Hwf. apply andb_true_iff in Hwf as [Hseg Hwf].
  cbn [flatten map]. destruct seg as [t|k']; cbn [segmentText].
  - change (placeholder k) with (String "{" (String "{" (k ++ "}}"))).
    rewrite replaceFrom_pass by now apply noBrace_no_open.
    f_equal. now apply IH.
  - cbn [wellFormedSegment] in Hseg.
    destruct (String.eqb_spec k' k) as [->|Hne]; cbn [segmentText].
    + rewrite replaceFrom_own_hole by assumption. f_equal. now apply IH.
    + rewrite replaceFrom_other_hole by (auto; congruence).
      f_equal. now apply IH.
Qed.

Lemma letter_or_digit_no_brace (c : ascii) :
  isLetter c || isDigit c = true -> isBrace c = false.
Proof.
  destruct c as [b0 b1 b2 b3 b4 b5 b6 b7].
  destruct b0, b1, b2, b3, b4, b5, b6, b7; vm_compute;
    solve [reflexivity | discriminate].
Qed.

Lemma identifier_noBrace (k : string) :
  identifier k = true -> noBrace k = true.
Proof.
  destruct k as [|c k]; [discriminate|]. cbn [identifier].
  intros H. apply andb_true_iff in H as [Hc Hk].
  unfold noBrace. cbn [allChars].
  rewrite letter_or_digit_no_brace by (rewrite Hc; reflexivity).
  cbn [negb andb].
  induction k as [|d k IH]; [reflexivity|].
  cbn [allChars] in Hk |- *. apply andb_true_iff in Hk as [Hd Hk].
  rewrite (letter_or_digit_no_brace d Hd). cbn [negb andb]. now apply IH.
Qed.

Lemma identifiers_noBrace (ks : list string) :
  forallb identifier ks = true -> forallb noBrace ks = true.
Proof.
  induction ks as [|k ks IH]; [reflexivity|]. cbn [forallb].
  intros H. apply andb_true_iff in H as [Hk Hks].
  now rewrite (identifier_noBrace k Hk), IH.
Qed.

(** ** The template renderer on well-formed templates *)

Lemma fillKeys_step (k : string) (ks : list string) (context : Object)
  (segs : list Segment) :
  map (fillKeys ks context)
      (map (fun seg => match seg with
                       | Lit t => Lit t
                       | Hole k' => if (k' =? k)%string
                                    then Lit (inserted context k)
                                    else Hole k'
                       end) segs)
  = map (fillKeys (k :: ks) context) segs.
Proof.
  rewrite map_map. apply map_ext. intros [t|k']; [reflexivity|].
  cbn [fillKeys existsb].
  destruct (String.eqb_spec k' k) as [->|Hne]; reflexivity.
Qed.

Lemma wellFormed_step (k rep : string) (segs : list Segment) :
  noBrace rep = true -> wellFormed segs = true ->
  wellFormed (map (fun seg => match seg with
                              | Lit t => Lit t
                              | Hole k' => if (k' =? k)%string then Lit rep
                                           else Hole k'
                              end) segs) = true.
Proof.
  intros Hrep. induction segs as [|seg segs IH]; [reflexivity|].
  cbn [wellFormed forallb map]. intros H.
  apply andb_true_iff in H as [Hseg Hwf].
  apply andb_true_iff. split; [|now apply IH].
  destruct seg as [t|k']; [exact Hseg|].
  destruct (k' =? k)%string; [exact Hrep | exact Hseg].
Qed.

(** The passes for the keys [ks], in order, fill exactly the holes of
    these keys. *)
Lemma replaceEach_segments (ks : list string) (context : Object) :
  forallb noBrace ks = true ->
  forallb (fun k => noBrace (inserted context k)
                    && noDollar (inserted context k)) ks = true ->
  forall segs, wellFormed segs = true ->
  replaceEach ks context (JsString (flatten segs))
  = inr (JsString (flatten (map (fillKeys ks context) segs))).
Proof.
  induction ks as [|k ks IH]; intros Hks Hvals segs Hwf.
  - cbn [replaceEach]. do 3 f_equal.
    rewrite <- (map_id segs) at 1. apply map_ext.
    intros [t|k']; reflexivity.
  - cbn [forallb] in Hks, Hvals.
    apply andb_true_iff in Hks as [Hk Hks].
    apply andb_true_iff in Hvals as [Hv Hvals].
    apply andb_true_iff in Hv as [Hv1 Hv2].
    cbn [replaceEach]. unfold replaceAll.
    fold (inserted context k).
    rewrite replaceFrom_segments by assumption.
    rewrite IH by (try assumption; now apply wellFormed_step).
    now rewrite fillKeys_step.
Qed.

Lemma replaceVariables_segments (context : Object) (segs : list Segment) :
  wellFormed segs = true ->
  forallb identifier (keys context) = true ->
  plainValues context = true ->
  replaceVariables (JsString (flatten segs)) context
  = inr (JsString (flatten (instantiate context segs))).
Proof.
  intros Hwf Hid Hplain. unfold replaceVariables, instantiate.
  apply replaceEach_segments; auto using identifiers_noBrace.
Qed.

(** ** C2 *)

(** C2, as the code has it.  On a template whose text outside the
    placeholders, and whose keys, hold no brace, and for a context whose
    keys are identifiers and whose inserted values hold no brace and no
    dollar sign, [replaceVariables] puts [String(context[key] || '')] in
    place of every [{{key}}] whose key the context has, and leaves the
    placeholder of a key the context lacks as it stands. *)
Theorem replaceVariables_fills_present_keys
  (segs : list Segment) (context : Object) :
  wellFormed segs = true ->
  forallb identifier (keys context) = true ->
  plainValues context = true ->
  replaceVariables (JsString (flatten segs)) context
  = inr (JsString (flatten (instantiate context segs)))
  /\ (forall k, In (Hole k) segs -> hasKey context k = true ->
        In (Lit (inserted context k)) (instantiate context segs))
  /\ (forall k, In (Hole k) segs -> hasKey context k = false ->
        In (Hole k) (instantiate context segs)).
Proof.
  intros Hwf Hid Hplain. split; [now apply replaceVariables_segments|].
  unfold instantiate, hasKey. split; intros k Hin Hk;
    apply in_map_iff; exists (Hole k); (split; [|exact Hin]);
    cbn [fillKeys]; now rewrite Hk.
Qed.

(** The spec's example P3, first part, through the theorem. *)
Lemma replaceVariables_fills_present_keys_witness :
  replaceVariables (JsString "Hi {{name}}, item {{item}} is low, {{missing}}")
    [("name", JsString "Sam"); ("item", JsString "Gloves")]
  = inr (JsString "Hi Sam, item Gloves is low, {{missing}}").
Proof.
  exact (proj1 (replaceVariables_fills_present_keys
    [Lit "Hi "; Hole "name"; Lit ", item "; Hole "item"; Lit " is low, ";
     Hole "missing"]
    [("name", JsString "Sam"); ("item", JsString "Gloves")]
    eq_refl eq_refl eq_refl)).
Defined.

(** C2 as the spec words it fails: the placeholder of an absent key is
    not turned into the empty string, it stays in the output. *)
Lemma replaceVariables_missing_key_stays :
  replaceVariables (JsString "{{missing}}") [] = inr (JsString "{{missing}}")
  /\ replaceVariables (JsString "{{missing}}") [] <> inr (JsString "")
  /\ replaceVariables (JsString "{{missing}}") [("name", JsString "Sam")]
     <> inr (JsString "").
Proof. repeat split; discriminate. Qed.

(** ** C3 *)

Lemma includes_no_open (p : string) (u : string) :
  allChars (fun c => negb (Ascii.eqb "{" c)) u = true ->
  includes (String "{" p) u = false.
Proof.
  induction u as [|c u IH]; intros H; [reflexivity|].
  cbn [allChars] in H. apply andb_true_iff in H as [Hc Hu].
  apply negb_true_iff in Hc.
  cbn [includes startsWith]. rewrite Hc. cbn [andb orb]. now apply IH.
Qed.

Lemma includes_pass (p u t : string) :
  allChars (fun c => negb (Ascii.eqb "{" c)) u = true ->
  includes (String "{" p) (u ++ t) = includes (String "{" p) t.
Proof.
  induction u as [|c u IH]; intros H; [reflexivity|].
  cbn [allChars] in H. apply andb_true_iff in H as [Hc Hu].
  apply negb_true_iff in Hc.
  change ((String c u ++ t)%string) with (String c (u ++ t)).
  cbn [includes startsWith]. rewrite Hc. cbn [andb orb]. now apply IH.
Qed.

(** The placeholder of one key does not occur in that of another, nor
    across its end. *)
Lemma includes_after_placeholder (k k' t : string) :
  noBrace k = true -> noBrace k' = true -> k' <> k ->
  includes (placeholder k') (placeholder k ++ t) = includes (placeholder k') t.
Proof.
  intros Hk Hk' Hne. rewrite placeholder_unfold.
  cbn [includes].
  rewrite <- placeholder_unfold.
  destruct (startsWith (placeholder k') (placeholder k ++ t)) eqn:E.
  { exfalso. apply Hne. now apply (startsWith_placeholder k' k t). }
  rewrite (no_match_inside k' k t Hk). cbn [orb].
  change (placeholder k') with (String "{" (String "{" (k' ++ "}}"))).
  apply includes_pass. now apply key_tail_no_open.
Qed.

Lemma noBrace_no_close (s : string) :
  noBrace s = true ->
  allChars (fun c => negb (Ascii.eqb c "}")) s = true.
Proof.
  induction s as [|c s IH]; intros H; [reflexivity|].
  apply noBrace_cons in H as (_ & Hc & Hs).
  cbn [allChars]. rewrite Hc. cbn. now apply IH.
Qed.

(** Text without closing brace holds no match of a pattern that ends in
    one, nor the end of one. *)
Lemma startsWith_no_close (q t : string) :
  allChars (fun c => negb (Ascii.eqb c "}")) t = true ->
  startsWith (q ++ "}") t = false.
Proof.
  revert t. induction q as [|a q IH]; intros [|c t] H; try reflexivity.
  - cbn [allChars] in H. apply andb_true_iff in H as [Hc _].
    apply negb_true_iff in Hc.
    cbn [append startsWith]. now rewrite Ascii.eqb_sym, Hc.
  - cbn [allChars] in H. apply andb_true_iff in H as [_ Ht].
    cbn [append startsWith]. rewrite (IH t Ht). apply andb_false_r.
Qed.

Lemma startsWith_within (q s t : string) :
  allChars (fun c => negb (Ascii.eqb c "}")) t = true ->
  startsWith (q ++ "}") (s ++ t) = startsWith (q ++ "}") s.
Proof.
  intros Ht. revert q. induction s as [|c s IH]; intros q.
  - cbn [append]. rewrite startsWith_no_close by assumption.
    now destruct q.
  - change ((String c s ++ t)%string) with (String c (s ++ t)).
    destruct q as [|a q]; cbn [append startsWith]; [reflexivity|].
    now rewrite IH.
Qed.

Lemma includes_within (q s t : string) :
  allChars (fun c => negb (Ascii.eqb c "}")) t = true ->
  includes (q ++ "}") (s ++ t) = includes (q ++ "}") s.
Proof.
  intros Ht. induction s as [|c s IH].
  - cbn [append]. induction t as [|c t IHt].
    + reflexivity.
    + pose proof Ht as Ht'.
      cbn [allChars] in Ht'. apply andb_true_iff in Ht' as [_ Ht'].
      cbn [includes]. rewrite startsWith_no_close by assumption.
      cbn [orb]. rewrite (IHt Ht'). cbn [includes].
      now destruct q.
  - change ((String c s ++ t)%string) with (String c (s ++ t)).
    cbn [includes].
    change (String c (s ++ t)) with ((String c s ++ t)%string).
    now rewrite startsWith_within, IH.
Qed.

Lemma placeholder_close (k : string) :
  placeholder k = (("{{" ++ k ++ "}") ++ "}")%string.
Proof. unfold placeholder. now rewrite !append_assoc. Qed.

Lemma replaceEach_unchanged (ks : list string) (context : Object) (s : string) :
  (forall k', In k' ks -> includes (placeholder k') s = false) ->
  replaceEach ks context (JsString s) = inr (JsString s).
Proof.
  induction ks as [|k ks IH]; intros H; [reflexivity|].
  cbn [replaceEach]. unfold replaceAll.
  rewrite replaceFrom_absent by (apply H; now left).
  apply IH. intros k' Hin. apply H. now right.
Qed.

Lemma replaceEach_app (ks1 ks2 : list string) (context : Object) (r : JsValue) :
  replaceEach (ks1 ++ ks2) context r
  = match replaceEach ks1 context r with
    | inr r' => replaceEach ks2 context r'
    | inl e => inl e
    end.
Proof.
  revert r. induction ks1 as [|k ks1 IH]; intros r; [reflexivity|].
  cbn [app replaceEach]. destruct r; try reflexivity. apply IH.
Qed.

Lemma keys_app (o1 o2 : Object) : keys (o1 ++ o2)%list = (keys o1 ++ keys o2)%list.
Proof. apply map_app. Qed.

Lemma get_first (pre post : Object) (k : string) (v : JsValue) :
  ~ In k (keys pre) -> get (pre ++ (k, v) :: post)%list k = v.
Proof.
  induction pre as [|[k' v'] pre IH]; intros Hnin.
  - cbn. now rewrite String.eqb_refl.
  - cbn [app get]. destruct (String.eqb_spec k' k) as [->|Hne].
    + exfalso. apply Hnin. now left.
    + apply IH. intros Hin. apply Hnin. now right.
Qed.

Lemma forallb_In {A : Type} (p : A -> bool) (l : list A) (x : A) :
  forallb p l = true -> In x l -> p x = true.
Proof. intros H Hin. rewrite forallb_forall in H. now apply H. Qed.

(** C3, as the code has it.  In a template that holds the placeholder of
    a key once and no brace elsewhere, the value of the key, free of
    dollar signs, is inserted verbatim, placeholder syntax included, when
    none of the placeholders it holds names a key that [Object.keys]
    lists after that key: the pass of a key does not scan what it
    inserted, the passes of the later keys do. *)
Theorem replaceVariables_value_verbatim
  (pre post : Object) (k v t1 t2 : string) :
  forallb identifier (keys (pre ++ (k, JsString v) :: post)%list) = true ->
  ~ In k (keys pre) ->
  noBrace t1 = true -> noBrace t2 = true ->
  noDollar v = true ->
  (forall k', In k' (keys post) -> includes (placeholder k') v = false) ->
  replaceVariables (JsString (t1 ++ placeholder k ++ t2))
                   (pre ++ (k, JsString v) :: post)%list
  = inr (JsString (t1 ++ v ++ t2)).
Proof.
  intros Hid Hnin Ht1 Ht2 Hdollar Hlater.
  pose proof (identifiers_noBrace _ Hid) as Hnb.
  rewrite keys_app in Hnb. cbn [keys map fst] in Hnb.
  rewrite forallb_app in Hnb. apply andb_true_iff in Hnb as [Hpre Hk].
  cbn [forallb] in Hk. apply andb_true_iff in Hk as [Hk _].
  assert (Hopen : forall k' t, includes (placeholder k') (t1 ++ t)
                               = includes (placeholder k') t).
  { intros k' t.
    change (placeholder k') with (String "{" (String "{" (k' ++ "}}"))).
    apply includes_pass. now apply noBrace_no_open. }
  unfold replaceVariables. rewrite keys_app. cbn [keys map fst].
  rewrite replaceEach_app.
  rewrite replaceEach_unchanged.
  - cbn [replaceEach]. rewrite get_first by assumption.
    assert (Hv : toString (or_else (JsString v) (JsString "")) = v).
    { unfold or_else. cbn [truthy].
      destruct (String.eqb_spec v "") as [->|_]; reflexivity. }
    rewrite Hv. unfold replaceAll.
    rewrite <- (append_empty_r t2) at 1.
    change ((t1 ++ placeholder k ++ t2 ++ "")%string)
      with (flatten [Lit t1; Hole k; Lit t2]).
    rewrite replaceFrom_segments
      by (try assumption; cbn [wellFormed forallb wellFormedSegment];
          now rewrite Ht1, Hk, Ht2).
    cbn [map]. rewrite String.eqb_refl. cbn [flatten segmentText].
    rewrite append_empty_r.
    apply replaceEach_unchanged. intros k' Hin.
    rewrite Hopen, placeholder_close, includes_within
      by now apply noBrace_no_close.
    rewrite <- placeholder_close. now apply Hlater.
  - intros k' Hin.
    rewrite Hopen, includes_after_placeholder.
    + change (placeholder k') with (String "{" (String "{" (k' ++ "}}"))).
      apply includes_no_open. now apply noBrace_no_open.
    + exact Hk.
    + exact (forallb_In _ _ _ Hpre Hin).
    + intros ->. now apply Hnin.
Qed.

(** The value names its own key and an earlier one, and a later key
    follows: it comes out verbatim. *)
Lemma replaceVariables_value_verbatim_witness :
  replaceVariables (JsString "Dear {{a}}!")
    [("b", JsString "X"); ("a", JsString "{{b}} and {{a}}");
     ("c", JsString "Y")]
  = inr (JsString "Dear {{b}} and {{a}}!").
Proof.
  refine (replaceVariables_value_verbatim
            [("b", JsString "X")] [("c", JsString "Y")] "a" "{{b}} and {{a}}"
            "Dear " "!" eq_refl _ eq_refl eq_refl eq_refl _).
  - cbn. intros [H|[]]. discriminate H.
  - intros k' [<-|[]]. reflexivity.
Defined.

(** C3 as the spec words it fails: a value that holds the placeholder of
    a later key is expanded again by that key's pass, and whether it is
    depends on the order of the keys. *)
Lemma replaceVariables_reexpands :
  replaceVariables (JsString "{{a}}")
    [("a", JsString "{{b}}"); ("b", JsString "X")] = inr (JsString "X")
  /\ replaceVariables (JsString "{{a}}")
       [("a", JsString "{{b}}"); ("b", JsString "X")] <> inr (JsString "{{b}}")
  /\ replaceVariables (JsString "{{a}}")
       [("b", JsString "X"); ("a", JsString "{{b}}")] = inr (JsString "{{b}}").
Proof. repeat split; discriminate. Qed.

(** ** C10 *)

Lemma falsy_values :
  truthy (JsNumber 0) = false /\ truthy (JsString "") = false
  /\ truthy JsNull = false /\ truthy JsUndefined = false.
Proof. repeat split. Qed.




(* ------------------------------------------------------------------ *)
(** ** Frames and logs                                                 *)
(* ------------------------------------------------------------------ *)

Lemma world_eta (w : World) :
  mkWorld (automationTable w) (alertTable w) (bookingTable w)
          (formSubmissionTable w) (inventoryItemTable w) (ioInstance w)
          (env w) (toLocaleDateString w) (toLocaleTimeString w)
          (utcOffset w) (localOffset w) (now w)
          (faults w) (ticks w) (log w) = w.
Proof. now destruct w. Qed.

(** On a host whose zone keeps one offset a day is 24 hours. *)
Lemma addDays_fixedOffset (w : World) (date : Time) (amount : Z) :
  fixedOffset w -> addDays w date amount = date + amount * msPerDay.
Proof.
  intros (o & Hutc & Hlocal). unfold addDays.
  destruct (amount =? 0) eqn:E.
  - apply Z.eqb_eq in E. subst amount. lia.
  - cbv zeta. rewrite Hutc, Hlocal. lia.
Qed.

Lemma addDays_advance rows n d (w : World) (date : Time) (amount : Z) :
  addDays (advance rows n d w) date amount = addDays w date amount.
Proof. reflexivity. Qed.

Lemma advance_zero (w : World) : advance [] 0 [] w = w.
Proof.
  unfold advance. rewrite !app_nil_r, Nat.add_0_r. apply world_eta.
Qed.

Lemma advance_advance (r1 r2 : list Alert.t) (n1 n2 : nat)
  (d1 d2 : list Effect) (w : World) :
  advance r2 n2 d2 (advance r1 n1 d1 w)
  = advance (r1 ++ r2) (n1 + n2) (d1 ++ d2) w.
Proof.
  unfold advance. cbn. now rewrite !app_assoc, Nat.add_assoc.
Qed.

Lemma steady_refl (w : World) : steady w w.
Proof. exists [], 0%nat, []. symmetry. apply advance_zero. Qed.

Lemma steady_advance (rows : list Alert.t) (n : nat) (d : list Effect)
  (w : World) : steady w (advance rows n d w).
Proof. now exists rows, n, d. Qed.

Lemma steady_trans (w1 w2 w3 : World) :
  steady w1 w2 -> steady w2 w3 -> steady w1 w3.
Proof.
  intros (r1 & n1 & d1 & ->) (r2 & n2 & d2 & ->).
  rewrite advance_advance. apply steady_advance.
Qed.

Lemma skipn_exact {A : Type} (l d : list A) :
  skipn (List.length l) (l ++ d) = d.
Proof. induction l as [|x l IH]; [reflexivity | exact IH]. Qed.

Lemma newEffects_advance (rows : list Alert.t) (n : nat) (d : list Effect)
  (w : World) : newEffects w (advance rows n d w) = d.
Proof. unfold newEffects. cbn. apply skipn_exact. Qed.

Lemma newEffects_refl (w : World) : newEffects w w = [].
Proof. rewrite <- (advance_zero w) at 2. apply newEffects_advance. Qed.

Lemma newEffects_trans (w1 w2 w3 : World) :
  steady w1 w2 -> steady w2 w3 ->
  newEffects w1 w3 = (newEffects w1 w2 ++ newEffects w2 w3)%list.
Proof.
  intros (r1 & n1 & d1 & ->) (r2 & n2 & d2 & ->).
  rewrite (newEffects_advance r2 n2 d2), (newEffects_advance r1 n1 d1).
  rewrite advance_advance. apply newEffects_advance.
Qed.

Lemma steady_fields (w w' : World) :
  steady w w' ->
  automationTable w' = automationTable w
  /\ bookingTable w' = bookingTable w
  /\ formSubmissionTable w' = formSubmissionTable w
  /\ inventoryItemTable w' = inventoryItemTable w
  /\ ioInstance w' = ioInstance w
  /\ now w' = now w
  /\ faults w' = faults w
  /\ (ticks w <= ticks w')%nat
  /\ exists rows, alertTable w' = (alertTable w ++ rows)%list.
Proof.
  intros (r & n & d & ->). cbn. repeat split; try lia. now exists r.
Qed.

Lemma record_advance (e : Effect) (w : World) :
  record e w = (inr tt, advance [] 0 [e] w).
Proof.
  unfold record, advance, set_log. now rewrite app_nil_r, Nat.add_0_r.
Qed.

Lemma request_advance {A : Type} (e : Exn) (op : M A) (w : World) :
  request e op w
  = if faults w (ticks w) then (inl e, advance [] 1 [] w)
    else op (advance [] 1 [] w).
Proof.
  unfold request, advance, set_ticks.
  now rewrite !app_nil_r, Nat.add_1_r.
Qed.

Lemma after_bind {A B : Type} (m : M A) (k : A -> M B) (w : World) :
  bind m k w = match outcome m w with
               | inl e => (inl e, after m w)
               | inr a => k a (after m w)
               end.
Proof. unfold bind, outcome, after. now destruct (m w) as [[e|a] w']. Qed.

(** Selecting from a log distributes over appending. *)
Lemma executions_app (d1 d2 : list Effect) :
  executions (d1 ++ d2) = (executions d1 ++ executions d2)%list.
Proof. apply flat_map_app. Qed.

Lemma dispatches_app (d1 d2 : list Effect) :
  dispatches (d1 ++ d2) = (dispatches d1 ++ dispatches d2)%list.
Proof. apply flat_map_app. Qed.

Lemma faults_advance rows n d w : faults (advance rows n d w) = faults w.
Proof. reflexivity. Qed.

Lemma ticks_advance rows n d w :
  ticks (advance rows n d w) = (ticks w + n)%nat.
Proof. reflexivity. Qed.

Lemma now_advance rows n d w : now (advance rows n d w) = now w.
Proof. reflexivity. Qed.

Lemma ioInstance_advance rows n d w :
  ioInstance (advance rows n d w) = ioInstance w.
Proof. reflexivity. Qed.

Lemma alertTable_advance rows n d w :
  alertTable (advance rows n d w) = (alertTable w ++ rows)%list.
Proof. reflexivity. Qed.

Lemma automationTable_advance rows n d w :
  automationTable (advance rows n d w) = automationTable w.
Proof. reflexivity. Qed.

Lemma smsProvider_advance rows n d w :
  smsProvider (advance rows n d w) = smsProvider w.
Proof. reflexivity. Qed.

Create Rewrite HintDb world.

#[local] Hint Rewrite advance_advance faults_advance ticks_advance
  now_advance ioInstance_advance alertTable_advance automationTable_advance
  smsProvider_advance Nat.add_0_r app_nil_r
  : world.

(** Unfolds the monad and brings the worlds a run goes through into the
    form [advance rows n d w]. *)
Ltac run :=
  unfold bind, tryCatch, ret, throw, liftE, read, consoleError;
  repeat (rewrite ?record_advance, ?request_advance;
          autorewrite with world; cbn [app Nat.add]).

(** ** The channels and the alert table, as requests *)

Lemma sendEmail_advance (p : EmailPayload) (w : World) :
  sendEmail p w
  = if faults w (ticks w)
    then (inl TransportError,
          advance [] 1 [CallSendEmail p; ConsoleError "Error sending email:"] w)
    else (inr tt, advance [] 1 [CallSendEmail p; EmailDelivered p] w).
Proof.
  unfold sendEmail. run.
  destruct (faults w (ticks w)); run; reflexivity.
Qed.

Lemma sendSMS_advance (p : SMSPayload) (w : World) :
  sendSMS p w
  = if (smsProvider w =? "twilio")%string then
      if faults w (ticks w)
      then (inl TransportError,
            advance [] 1 [CallSendSMS p; ConsoleError "Error sending SMS:"] w)
      else (inr tt, advance [] 1 [CallSendSMS p; SmsDelivered p] w)
    else (inr tt, advance [] 0 [CallSendSMS p] w).
Proof.
  unfold sendSMS. run.
  destruct (smsProvider w =? "twilio")%string; run; [|reflexivity].
  destruct (faults w (ticks w)); run; reflexivity.
Qed.

Lemma prisma_alert_create_advance (data : AlertCreateInput) (w : World) :
  prisma_alert_create data w
  = match alertRow (now w) data with
    | None => (inl PrismaError, w)
    | Some row =>
        if faults w (ticks w) then (inl PrismaError, advance [] 1 [] w)
        else (inr tt, advance [row] 1 [] w)
    end.
Proof.
  unfold prisma_alert_create.
  destruct (alertRow (now w) data) as [row|]; [|reflexivity].
  run. destruct (faults w (ticks w)); [reflexivity|].
  unfold set_alertTable, advance. cbn. now rewrite !app_nil_r.
Qed.

Lemma prisma_automation_findMany_advance ws trig (w : World) :
  prisma_automation_findMany ws trig w
  = if faults w (ticks w) then (inl PrismaError, advance [] 1 [] w)
    else (inr (filter (automationWhere ws trig) (automationTable w)),
          advance [] 1 [] w).
Proof. unfold prisma_automation_findMany. run. reflexivity. Qed.

(* ------------------------------------------------------------------ *)
(** ** The rule executor, branch by branch                             *)
(* ------------------------------------------------------------------ *)

Lemma executeAutomation_email (a : Automation.t) (context : Object) (w : World) :
  Automation.action a = SEND_EMAIL ->
  executeAutomation a context w
  = if truthy (get context "email") then
      match replaceVariables (get (Automation.config a) "body") context with
      | inl _ =>
          (inr tt, advance [] 0 [CallExecute a context; executeError] w)
      | inr body =>
          let p := mkEmail (get context "email")
                     (or_else (get (Automation.config a) "subject")
                              (JsString "Notification")) body in
          if faults w (ticks w)
          then (inr tt,
                advance [] 1 [CallExecute a context; CallSendEmail p;
                              ConsoleError "Error sending email:";
                              executeError] w)
          else (inr tt,
                advance [] 1 [CallExecute a context; CallSendEmail p;
                              EmailDelivered p] w)
      end
    else (inr tt, advance [] 0 [CallExecute a context] w).
Proof.
  intros Hact. unfold executeAutomation, executeError. rewrite Hact. run.
  destruct (truthy (get context "email")); [|reflexivity].
  destruct (replaceVariables _ context) as [e|body]; run; [reflexivity|].
  rewrite sendEmail_advance. run.
  destruct (faults w (ticks w)); run; reflexivity.
Qed.

Lemma executeAutomation_sms (a : Automation.t) (context : Object) (w : World) :
  Automation.action a = SEND_SMS ->
  executeAutomation a context w
  = if truthy (get context "phone") then
      match replaceVariables (get (Automation.config a) "message") context with
      | inl _ =>
          (inr tt, advance [] 0 [CallExecute a context; executeError] w)
      | inr message =>
          let p := mkSMS (get context "phone") message in
          if (smsProvider w =? "twilio")%string then
            if faults w (ticks w)
            then (inr tt,
                  advance [] 1 [CallExecute a context; CallSendSMS p;
                                ConsoleError "Error sending SMS:";
                                executeError] w)
            else (inr tt,
                  advance [] 1 [CallExecute a context; CallSendSMS p;
                                SmsDelivered p] w)
          else (inr tt, advance [] 0 [CallExecute a context; CallSendSMS p] w)
      end
    else (inr tt, advance [] 0 [CallExecute a context] w).
Proof.
  intros Hact. unfold executeAutomation, executeError. rewrite Hact. run.
  destruct (truthy (get context "phone")); [|reflexivity].
  destruct (replaceVariables _ context) as [e|message]; run; [reflexivity|].
  rewrite sendSMS_advance. run.
  destruct (smsProvider w =? "twilio")%string; run; [|reflexivity].
  destruct (faults w (ticks w)); run; reflexivity.
Qed.

Lemma executeAutomation_alert (a : Automation.t) (context : Object) (w : World) :
  Automation.action a = CREATE_ALERT ->
  executeAutomation a context w
  = match replaceVariables (get (Automation.config a) "title") context,
          replaceVariables (get (Automation.config a) "message") context with
    | inr title, inr message =>
        match alertRow (now w) (alertData a context title message) with
        | None =>
            (inr tt, advance [] 0 [CallExecute a context; executeError] w)
        | Some row =>
            if faults w (ticks w)
            then (inr tt,
                  advance [] 1 [CallExecute a context; executeError] w)
            else if ioInstance w
            then (inr tt,
                  advance [row] 1 [CallExecute a context; alertEmit a message] w)
            else (inr tt, advance [row] 1 [CallExecute a context] w)
        end
    | _, _ => (inr tt, advance [] 0 [CallExecute a context; executeError] w)
    end.
Proof.
  intros Hact. unfold executeAutomation, executeError. rewrite Hact. run.
  destruct (replaceVariables (get _ "title") context) as [e|title]; run;
    [reflexivity|].
  destruct (replaceVariables (get _ "message") context) as [e|message];
    run; [reflexivity|].
  rewrite prisma_alert_create_advance. run.
  fold (alertData a context title message).
  destruct (alertRow _ _) as [row|]; run; [|reflexivity].
  destruct (faults w (ticks w)); run; [reflexivity|].
  destruct (ioInstance w); run; reflexivity.
Qed.

(** Whatever happens inside, [executeAutomation] returns normally, and
    between its entry and its return no other rule is entered and
    nothing is dispatched. *)
Lemma executeAutomation_summary (a : Automation.t) (context : Object)
  (w : World) :
  exists rows n d,
    executeAutomation a context w
    = (inr tt, advance rows n (CallExecute a context :: d) w)
    /\ executions d = [] /\ dispatches d = [].
Proof.
  destruct (Automation.action a) eqn:Hact.
  - rewrite executeAutomation_email by assumption.
    destruct (truthy _); [|now exists [], 0%nat, []].
    destruct (replaceVariables _ _); [now eexists [], 0%nat, [_]|].
    cbv zeta. destruct (faults _ _); now eexists [], 1%nat, _.
  - rewrite executeAutomation_sms by assumption.
    destruct (truthy _); [|now exists [], 0%nat, []].
    destruct (replaceVariables _ _); [now eexists [], 0%nat, [_]|].
    cbv zeta. destruct (_ =? _)%string; [|now eexists [], 0%nat, [_]].
    destruct (faults _ _); now eexists [], 1%nat, _.
  - rewrite executeAutomation_alert by assumption.
    destruct (replaceVariables _ _); [now eexists [], 0%nat, [_]|].
    destruct (replaceVariables _ _); [now eexists [], 0%nat, [_]|].
    destruct (alertRow _ _) as [row|]; [|now eexists [], 0%nat, [_]].
    destruct (faults _ _); [now eexists [], 1%nat, [_]|].
    destruct (ioInstance w); [now eexists [row], 1%nat, [_]|].
    now exists [row], 1%nat, [].
Qed.

Lemma executeAutomation_returns (a : Automation.t) (context : Object)
  (w : World) : outcome (executeAutomation a context) w = inr tt.
Proof.
  destruct (executeAutomation_summary a context w) as (r & n & d & H & _).
  unfold outcome. now rewrite H.
Qed.

Lemma executeAutomation_steady (a : Automation.t) (context : Object)
  (w : World) : steady w (after (executeAutomation a context) w).
Proof.
  destruct (executeAutomation_summary a context w) as (r & n & d & H & _).
  unfold after. rewrite H. apply steady_advance.
Qed.

(** ** Loops *)

Section Loops.

Context {A : Type} (body : A -> M unit).

(** A loop whose body never throws runs the body on every element. *)
Lemma forOf_fold (l : list A) :
  (forall x w, outcome (body x) w = inr tt) ->
  forall w,
    forOf l body w
    = (inr tt, fold_left (fun w' x => after (body x) w') l w).
Proof.
  intros Hbody. induction l as [|x l IH]; intros w; [reflexivity|].
  cbn [forOf fold_left]. rewrite after_bind, Hbody. apply IH.
Qed.

Hypothesis body_steady : forall x w, steady w (after (body x) w).

Lemma fold_steady (l : list A) :
  forall w, steady w (fold_left (fun w' x => after (body x) w') l w).
Proof.
  induction l as [|x l IH]; intros w.
  - apply steady_refl.
  - cbn [fold_left]. eapply steady_trans; [apply body_steady | apply IH].
Qed.

(** What a loop logs, seen through a selection [sel] of the log, when
    the body's share does not depend on the world. *)
Lemma fold_selects {X : Type} (sel : Effect -> list X) (f : A -> list X)
  (l : list A) :
  (forall x w, flat_map sel (newEffects w (after (body x) w)) = f x) ->
  forall w,
    flat_map sel
      (newEffects w (fold_left (fun w' x => after (body x) w') l w))
    = flat_map f l.
Proof.
  intros Hsel. induction l as [|x l IH]; intros w.
  - cbn [fold_left flat_map]. now rewrite newEffects_refl.
  - cbn [fold_left flat_map].
    rewrite (newEffects_trans w (after (body x) w))
      by (auto using fold_steady).
    now rewrite flat_map_app, Hsel, IH.
Qed.

End Loops.

(* ------------------------------------------------------------------ *)
(** ** The dispatcher                                                  *)
(* ------------------------------------------------------------------ *)

Lemma triggerAutomation_advance ws trig (context : Object) (w : World) :
  triggerAutomation ws trig context w
  = if faults w (ticks w)
    then (inr tt,
          advance [] 1 [CallTrigger ws trig context;
                        ConsoleError "Error triggering automation:"] w)
    else (inr tt,
          fold_left (fun w' a => after (executeAutomation a context) w')
                    (matching ws trig w)
                    (advance [] 1 [CallTrigger ws trig context] w)).
Proof.
  unfold triggerAutomation. run.
  rewrite prisma_automation_findMany_advance. run.
  destruct (faults w (ticks w)); run; [reflexivity|].
  rewrite forOf_fold by (intros; apply executeAutomation_returns).
  reflexivity.
Qed.

Lemma executions_of_execute (a : Automation.t) (context : Object) (w : World) :
  flat_map (fun e => match e with
                     | CallExecute a c => [(a, c)]
                     | _ => []
                     end)
    (newEffects w (after (executeAutomation a context) w))
  = [(a, context)].
Proof.
  destruct (executeAutomation_summary a context w) as (r & n & d & H & He & _).
  unfold after. rewrite H. cbn [snd]. rewrite newEffects_advance.
  cbn [flat_map app]. fold (executions d). now rewrite He.
Qed.

Lemma dispatches_of_execute (a : Automation.t) (context : Object) (w : World) :
  flat_map (fun e => match e with
                     | CallTrigger ws t c => [(ws, t, c)]
                     | _ => []
                     end)
    (newEffects w (after (executeAutomation a context) w))
  = [].
Proof.
  destruct (executeAutomation_summary a context w) as (r & n & d & H & _ & Hd).
  unfold after. rewrite H. cbn [snd]. rewrite newEffects_advance.
  cbn [flat_map app]. exact Hd.
Qed.

Lemma triggerAutomation_returns ws trig (context : Object) (w : World) :
  outcome (triggerAutomation ws trig context) w = inr tt.
Proof.
  unfold outcome. rewrite triggerAutomation_advance.
  now destruct (faults w (ticks w)).
Qed.

Lemma triggerAutomation_steady ws trig (context : Object) (w : World) :
  steady w (after (triggerAutomation ws trig context) w).
Proof.
  unfold after. rewrite triggerAutomation_advance.
  destruct (faults w (ticks w)); cbn [snd]; [apply steady_advance|].
  eapply steady_trans; [apply steady_advance|].
  apply fold_steady. intros. apply executeAutomation_steady.
Qed.

Lemma flat_map_singleton {A B : Type} (f : A -> B) (l : list A) :
  flat_map (fun x => [f x]) l = map f l.
Proof. induction l as [|x l IH]; [reflexivity|]. cbn. now rewrite IH. Qed.

Lemma flat_map_nil {A B : Type} (l : list A) :
  flat_map (fun _ : A => @nil B) l = [].
Proof. induction l as [|x l IH]; [reflexivity | exact IH]. Qed.

Lemma executions_of_trigger ws trig (context : Object) (w : World) :
  executions (newEffects w (after (triggerAutomation ws trig context) w))
  = if faults w (ticks w) then []
    else map (fun a => (a, context)) (matching ws trig w).
Proof.
  unfold after. rewrite triggerAutomation_advance.
  destruct (faults w (ticks w)); cbn [snd].
  - now rewrite newEffects_advance.
  - rewrite (newEffects_trans w (advance [] 1 [CallTrigger ws trig context] w))
      by (try apply steady_advance; apply fold_steady; intros;
          apply executeAutomation_steady).
    rewrite newEffects_advance, executions_app. cbn [executions flat_map app].
    unfold executions.
    rewrite (fold_selects _ (fun a w' => executeAutomation_steady a context w')
               _ (fun a => [(a, context)]))
      by (intros; apply executions_of_execute).
    apply flat_map_singleton.
Qed.

Lemma dispatches_of_trigger ws trig (context : Object) (w : World) :
  dispatches (newEffects w (after (triggerAutomation ws trig context) w))
  = [(ws, trig, context)].
Proof.
  unfold after. rewrite triggerAutomation_advance.
  destruct (faults w (ticks w)); cbn [snd].
  - now rewrite newEffects_advance.
  - rewrite (newEffects_trans w (advance [] 1 [CallTrigger ws trig context] w))
      by (try apply steady_advance; apply fold_steady; intros;
          apply executeAutomation_steady).
    rewrite newEffects_advance, dispatches_app. cbn [dispatches flat_map app].
    unfold dispatches.
    rewrite (fold_selects _ (fun a w' => executeAutomation_steady a context w')
               _ (fun _ => []))
      by (intros; apply dispatches_of_execute).
    now rewrite flat_map_nil.
Qed.

Lemma automationWhere_true ws trig (a : Automation.t) :
  automationWhere ws trig a = true
  <-> Automation.workspaceId a = ws /\ Automation.trigger a = trig
      /\ Automation.isActive a = true.
Proof.
  unfold automationWhere. rewrite !andb_true_iff, String.eqb_eq.
  assert (Ht : trigger_eqb (Automation.trigger a) trig = true
               <-> Automation.trigger a = trig)
    by (destruct (Automation.trigger a), trig; cbn; split;
        congruence).
  rewrite Ht. destruct (Automation.isActive a); cbn; intuition congruence.
Qed.

(** ** C1 *)

(** C1.  A call of [triggerAutomation] enters [executeAutomation] for
    the rules of the given workspace with the given trigger and
    [isActive = true], each once, in table order, with the given
    context -- all of them when the rule query succeeds, none when it
    fails.  So a rule of another workspace, of another trigger or a
    disabled rule is never executed. *)
Theorem triggerAutomation_selects ws trig (context : Object) (w : World) :
  executions (newEffects w (after (triggerAutomation ws trig context) w))
  = (if faults w (ticks w) then []
     else map (fun a => (a, context))
              (filter (automationWhere ws trig) (automationTable w)))
  /\ (forall a c,
        In (a, c)
           (executions
              (newEffects w (after (triggerAutomation ws trig context) w))) ->
        In a (automationTable w)
        /\ Automation.workspaceId a = ws
        /\ Automation.trigger a = trig
        /\ Automation.isActive a = true
        /\ c = context)
  /\ (forall a,
        faults w (ticks w) = false ->
        (In (a, context)
            (executions
               (newEffects w (after (triggerAutomation ws trig context) w)))
         <-> In a (automationTable w)
             /\ Automation.workspaceId a = ws
             /\ Automation.trigger a = trig
             /\ Automation.isActive a = true)).
Proof.
  rewrite executions_of_trigger. unfold matching.
  split; [reflexivity|]. split.
  - intros a c Hin. destruct (faults w (ticks w)); [destruct Hin|].
    apply in_map_iff in Hin as (a' & Heq & Hin). inversion Heq; subst.
    apply filter_In in Hin as [Hin Hw].
    apply automationWhere_true in Hw. tauto.
  - intros a Hok. rewrite Hok. split.
    + intros Hin. apply in_map_iff in Hin as (a' & Heq & Hin).
      inversion Heq; subst. apply filter_In in Hin as [Hin Hw].
      apply automationWhere_true in Hw. tauto.
    + intros (Hin & Hw). apply in_map_iff. exists a. split; [reflexivity|].
      apply filter_In. split; [exact Hin|]. now apply automationWhere_true.
Qed.

(** Two workspaces with identically named rules: the event of workspace
    A runs A's enabled rule only. *)
Lemma triggerAutomation_selects_witness :
  executions
    (newEffects twoWorkspaces
       (after (triggerAutomation "A" CONTACT_CREATED samContext) twoWorkspaces))
  = [(welcomeA, samContext)]
  /\ (In (welcomeA, samContext)
         (executions
            (newEffects twoWorkspaces
               (after (triggerAutomation "A" CONTACT_CREATED samContext)
                      twoWorkspaces)))
      <-> In welcomeA (automationTable twoWorkspaces)
          /\ Automation.workspaceId welcomeA = "A"
          /\ Automation.trigger welcomeA = CONTACT_CREATED
          /\ Automation.isActive welcomeA = true).
Proof.
  pose proof (triggerAutomation_selects "A" CONTACT_CREATED samContext
                twoWorkspaces) as (H1 & _ & H3).
  split; [exact H1 | exact (H3 welcomeA eq_refl)].
Defined.

(* ------------------------------------------------------------------ *)
(** ** C5                                                              *)
(* ------------------------------------------------------------------ *)

Lemma steady_alert_kept (w w' : World) (row : Alert.t) :
  steady w w' -> In row (alertTable w) -> In row (alertTable w').
Proof.
  intros (r & n & d & ->) Hin. cbn. apply in_or_app. now left.
Qed.

Lemma fold_left_app_cons {A B : Type} (f : B -> A -> B) (l1 l2 : list A)
  (x : A) (b : B) :
  fold_left f (l1 ++ x :: l2) b = fold_left f l2 (f (fold_left f l1 b) x).
Proof. now rewrite fold_left_app. Qed.

(** C5.  Neither [triggerAutomation] nor [executeAutomation] ever throws,
    whichever requests fail.  When the rule query succeeds, every
    selected rule is executed, each from the world its predecessor left,
    whether or not the predecessor threw inside; and the alert of a
    create-alert rule whose own request does not fail is in the table at
    the end, whatever the rules before it did. *)
Theorem triggerAutomation_isolates_failures :
  (forall ws trig context w,
      outcome (triggerAutomation ws trig context) w = inr tt)
  /\ (forall a context w, outcome (executeAutomation a context) w = inr tt)
  /\ (forall ws trig context w,
        faults w (ticks w) = false ->
        after (triggerAutomation ws trig context) w
        = fold_left (fun w' a => after (executeAutomation a context) w')
                    (filter (automationWhere ws trig) (automationTable w))
                    (advance [] 1 [CallTrigger ws trig context] w))
  /\ (forall ws trig context w before a later title message row,
        faults w (ticks w) = false ->
        filter (automationWhere ws trig) (automationTable w)
        = (before ++ a :: later)%list ->
        Automation.action a = CREATE_ALERT ->
        replaceVariables (get (Automation.config a) "title") context
        = inr title ->
        replaceVariables (get (Automation.config a) "message") context
        = inr message ->
        alertRow (now w) (alertData a context title message) = Some row ->
        faults w
          (ticks (fold_left
                    (fun w' a' => after (executeAutomation a' context) w')
                    before (advance [] 1 [CallTrigger ws trig context] w)))
        = false ->
        In row (alertTable (after (triggerAutomation ws trig context) w))).
Proof.
  split; [exact triggerAutomation_returns|].
  split; [exact executeAutomation_returns|].
  assert (Hfold : forall ws trig context w,
             faults w (ticks w) = false ->
             after (triggerAutomation ws trig context) w
             = fold_left (fun w' a => after (executeAutomation a context) w')
                 (filter (automationWhere ws trig) (automationTable w))
                 (advance [] 1 [CallTrigger ws trig context] w)).
  { intros ws trig context w Hok. unfold after at 1.
    rewrite triggerAutomation_advance, Hok. reflexivity. }
  split; [exact Hfold|].
  intros ws trig context w before a later title message row
         Hok Hsel Hact Htitle Hmsg Hrow Hfault.
  rewrite Hfold by assumption. rewrite Hsel, fold_left_app_cons.
  set (wa := fold_left _ before _) in *.
  assert (Hwa : steady w wa).
  { eapply steady_trans; [apply steady_advance|].
    apply fold_steady. intros. apply executeAutomation_steady. }
  destruct (steady_fields _ _ Hwa) as (_ & _ & _ & _ & _ & Hnow & Hf & _).
  eapply steady_alert_kept.
  { apply fold_steady. intros. apply executeAutomation_steady. }
  unfold after at 1. rewrite executeAutomation_alert by assumption.
  rewrite Htitle, Hmsg, Hnow, Hrow, Hf, Hfault.
  destruct (ioInstance wa); cbn; apply in_or_app; right; now left.
Qed.

(** The spec's P8: the mail rule's transport fails, the alert rule after
    it still runs and its alert is in the table. *)
Lemma triggerAutomation_isolates_failures_witness :
  In welcomeAlert
     (alertTable
        (after (triggerAutomation "A" CONTACT_CREATED samContext)
               mailThenAlert))
  /\ In (ConsoleError "Error sending email:")
        (log (after (triggerAutomation "A" CONTACT_CREATED samContext)
                    mailThenAlert)).
Proof.
  split.
  - exact (proj2 (proj2 (proj2 triggerAutomation_isolates_failures))
             "A" CONTACT_CREATED samContext mailThenAlert
             [mailRule] welcomeA [] (JsString "New contact")
             (JsString "Sam joined") welcomeAlert
             eq_refl eq_refl eq_refl eq_refl eq_refl eq_refl eq_refl).
  - vm_compute. tauto.
Defined.

(* ------------------------------------------------------------------ *)
(** ** C6                                                              *)
(* ------------------------------------------------------------------ *)

Lemma get_absent (o : Object) (k : string) :
  hasKey o k = false -> get o k = JsUndefined.
Proof.
  unfold hasKey. induction o as [|[k' v] o IH]; [reflexivity|].
  cbn [keys map fst existsb get]. intros H.
  apply orb_false_iff in H as [Hk Ho].
  rewrite String.eqb_sym, Hk. now apply IH.
Qed.

(** C6.  A send-email rule run with a context whose [email] is absent or
    falsy (empty, null), and a send-SMS rule run with a context whose
    [phone] is, does nothing but return: no channel call, no request, no
    error caught or logged. *)
Theorem executeAutomation_skips_without_address
  (a : Automation.t) (context : Object) (w : World) :
  (Automation.action a = SEND_EMAIL
   /\ (hasKey context "email" = false
       \/ truthy (get context "email") = false))
  \/ (Automation.action a = SEND_SMS
      /\ (hasKey context "phone" = false
          \/ truthy (get context "phone") = false)) ->
  executeAutomation a context w
  = (inr tt, advance [] 0 [CallExecute a context] w)
  /\ emailCalls (newEffects w (after (executeAutomation a context) w)) = []
  /\ smsCalls (newEffects w (after (executeAutomation a context) w)) = []
  /\ consoleErrors (newEffects w (after (executeAutomation a context) w)) = []
  /\ ticks (after (executeAutomation a context) w) = ticks w.
Proof.
  intros H.
  assert (Hrun : executeAutomation a context w
                 = (inr tt, advance [] 0 [CallExecute a context] w)).
  { assert (Hfalsy : forall k,
               hasKey context k = false \/ truthy (get context k) = false ->
               truthy (get context k) = false).
    { intros k [Habsent|Hfalsy]; [|exact Hfalsy].
      now rewrite (get_absent context k Habsent). }
    destruct H as [[Hact Hk]|[Hact Hk]]; apply Hfalsy in Hk.
    - rewrite executeAutomation_email by assumption. now rewrite Hk.
    - rewrite executeAutomation_sms by assumption. now rewrite Hk. }
  unfold after. rewrite Hrun. cbn [snd]. rewrite newEffects_advance.
  repeat split. cbn. apply Nat.add_0_r.
Qed.

(** The spec's P4: a context lacking [email] (and [phone]). *)
Lemma executeAutomation_skips_without_address_witness :
  hasKey anonymousContext "email" = false
  /\ emailCalls
       (newEffects (emptyWorld 0)
          (after (executeAutomation mailRule anonymousContext) (emptyWorld 0)))
     = []
  /\ outcome (executeAutomation mailRule anonymousContext) (emptyWorld 0)
     = inr tt
  /\ smsCalls
       (newEffects (emptyWorld 0)
          (after (executeAutomation welcomeOff anonymousContext) (emptyWorld 0)))
     = [].
Proof.
  split; [reflexivity|].
  pose proof (executeAutomation_skips_without_address
                mailRule anonymousContext (emptyWorld 0)
                (or_introl (conj eq_refl (or_introl eq_refl))))
    as (H1 & H2 & _).
  pose proof (executeAutomation_skips_without_address
                welcomeOff anonymousContext (emptyWorld 0)
                (or_intror (conj eq_refl (or_introl eq_refl))))
    as (_ & _ & H3 & _).
  split; [exact H2|]. split; [|exact H3].
  unfold outcome. now rewrite H1.
Defined.

(* ------------------------------------------------------------------ *)
(** ** C7                                                              *)
(* ------------------------------------------------------------------ *)

(** What the e-mail channel is called with: the body is rendered, the
    subject is the configured text as it stands (or "Notification"). *)
Lemma executeAutomation_email_call
  (a : Automation.t) (context : Object) (w : World) (body : JsValue) :
  Automation.action a = SEND_EMAIL ->
  truthy (get context "email") = true ->
  replaceVariables (get (Automation.config a) "body") context = inr body ->
  emailCalls (newEffects w (after (executeAutomation a context) w))
  = [mkEmail (get context "email")
             (or_else (get (Automation.config a) "subject")
                      (JsString "Notification"))
             body].
Proof.
  intros Hact Hmail Hbody. unfold after.
  rewrite executeAutomation_email by assumption. rewrite Hmail, Hbody.
  cbv zeta. destruct (faults w (ticks w)); cbn [snd];
    now rewrite newEffects_advance.
Qed.

(** C7 on the code: for the subject "Welcome {{contactName}}" and a
    context naming Sam, the channel is called with the subject unrendered,
    while the renderer would make it "Welcome Sam"; the body is rendered. *)
Theorem executeAutomation_subject_unrendered :
  emailCalls
    (newEffects (emptyWorld 0)
       (after (executeAutomation mailRule samContext) (emptyWorld 0)))
  = [mkEmail (JsString "sam@example.com")
             (JsString "Welcome {{contactName}}")
             (JsString "Hi Sam")]
  /\ replaceVariables (get (Automation.config mailRule) "subject") samContext
     = inr (JsString "Welcome Sam").
Proof. split; reflexivity. Qed.

(* ------------------------------------------------------------------ *)
(** ** Computations that only append                                   *)
(* ------------------------------------------------------------------ *)

Lemma steadyM_ret {A : Type} (a : A) : steadyM (ret a).
Proof. intros w. apply steady_refl. Qed.

Lemma steadyM_throw {A : Type} (e : Exn) : steadyM (@throw A e).
Proof. intros w. apply steady_refl. Qed.

Lemma steadyM_read {A : Type} (f : World -> A) : steadyM (read f).
Proof. intros w. apply steady_refl. Qed.

Lemma steadyM_liftE {A : Type} (r : Exn + A) : steadyM (liftE r).
Proof. intros w. apply steady_refl. Qed.

Lemma steadyM_record (e : Effect) : steadyM (record e).
Proof.
  intros w. unfold after. rewrite record_advance. apply steady_advance.
Qed.

Lemma steadyM_bind {A B : Type} (m : M A) (k : A -> M B) :
  steadyM m -> (forall a, steadyM (k a)) -> steadyM (bind m k).
Proof.
  intros Hm Hk w. unfold after. rewrite after_bind.
  destruct (outcome m w) as [e|a]; cbn [snd]; [apply Hm|].
  eapply steady_trans; [apply Hm | apply Hk].
Qed.

Lemma steadyM_tryCatch {A : Type} (m : M A) (h : Exn -> M A) :
  steadyM m -> (forall e, steadyM (h e)) -> steadyM (tryCatch m h).
Proof.
  intros Hm Hh w. specialize (Hm w). unfold after, tryCatch in *.
  destruct (m w) as [[e|a] w1]; cbn [snd] in *; [|exact Hm].
  eapply steady_trans; [exact Hm | apply Hh].
Qed.

Lemma steadyM_request {A : Type} (e : Exn) (op : M A) :
  steadyM op -> steadyM (request e op).
Proof.
  intros Hop w. unfold after. rewrite request_advance.
  destruct (faults w (ticks w)); cbn [snd]; [apply steady_advance|].
  eapply steady_trans; [apply steady_advance | apply Hop].
Qed.

Lemma steadyM_forOf {A : Type} (body : A -> M unit) (l : list A) :
  (forall x, steadyM (body x)) -> steadyM (forOf l body).
Proof.
  intros Hbody. induction l as [|x l IH]; [apply steadyM_ret|].
  cbn [forOf]. apply steadyM_bind; [apply Hbody | intros _; exact IH].
Qed.

Lemma steadyM_triggerAutomation ws trig (context : Object) :
  steadyM (triggerAutomation ws trig context).
Proof. intros w. apply triggerAutomation_steady. Qed.

Ltac steadiness :=
  repeat first
    [ apply steadyM_triggerAutomation
    | apply steadyM_ret | apply steadyM_throw | apply steadyM_read
    | apply steadyM_liftE | apply steadyM_record
    | apply steadyM_bind | apply steadyM_tryCatch | apply steadyM_request
    | apply steadyM_forOf
    | lazymatch goal with
      | |- steadyM _ => fail
      | |- _ => intro
      end ].

Lemma steadyM_checkBookingReminders : steadyM checkBookingReminders.
Proof. unfold checkBookingReminders, consoleError. steadiness. Qed.

Lemma steadyM_checkPendingForms : steadyM checkPendingForms.
Proof.
  unfold checkPendingForms, consoleError. steadiness.
  destruct (FormSubmission.booking _); steadiness.
Qed.

Lemma steadyM_checkInventoryItem (item : InventoryItem.t) :
  steadyM (checkInventoryItem item).
Proof.
  unfold checkInventoryItem. steadiness.
  match goal with |- steadyM (match ?x with _ => _ end) => destruct x end;
    steadiness.
Qed.

Lemma steadyM_checkInventoryLevels : steadyM checkInventoryLevels.
Proof.
  unfold checkInventoryLevels, consoleError.
  apply steadyM_tryCatch; [|steadiness].
  apply steadyM_bind; [unfold prisma_inventoryItem_findMany; steadiness|].
  intros items. apply steadyM_forOf. apply steadyM_checkInventoryItem.
Qed.

Lemma steadyM_every15Minutes : steadyM every15Minutes.
Proof.
  unfold every15Minutes.
  apply steadyM_bind; [apply steadyM_checkBookingReminders | intros _].
  apply steadyM_bind; [apply steadyM_checkPendingForms | intros _].
  apply steadyM_checkInventoryLevels.
Qed.

(* ------------------------------------------------------------------ *)
(** ** C4                                                              *)
(* ------------------------------------------------------------------ *)

Lemma checkBookingReminders_advance (w : World) :
  checkBookingReminders w
  = if faults w (ticks w)
    then (inr tt,
          advance [] 1 [ConsoleError "Error checking booking reminders:"] w)
    else (inr tt,
          fold_left
            (fun w' b =>
               after (triggerAutomation (Booking.workspaceId b)
                        BOOKING_REMINDER
                        (bookingContext (toLocaleDateString w)
                                        (toLocaleTimeString w) b)) w')
            (reminderBookings w) (advance [] 1 [] w)).
Proof.
  unfold checkBookingReminders, prisma_booking_findMany. run.
  destruct (faults w (ticks w)); run; [reflexivity|].
  rewrite forOf_fold by (intros; apply triggerAutomation_returns).
  reflexivity.
Qed.

Lemma checkBookingReminders_dispatches (w : World) :
  dispatches (newEffects w (after checkBookingReminders w))
  = if faults w (ticks w) then []
    else map (reminderDispatch w) (reminderBookings w).
Proof.
  unfold after. rewrite checkBookingReminders_advance.
  destruct (faults w (ticks w)); cbn [snd].
  - now rewrite newEffects_advance.
  - rewrite (newEffects_trans w (advance [] 1 [] w))
      by (try apply steady_advance; apply fold_steady; intros;
          apply triggerAutomation_steady).
    rewrite newEffects_advance. cbn [app]. unfold dispatches.
    rewrite (fold_selects _
               (fun b w' =>
                  triggerAutomation_steady (Booking.workspaceId b)
                    BOOKING_REMINDER
                    (bookingContext (toLocaleDateString w)
                                    (toLocaleTimeString w) b) w')
               _ (fun b => [reminderDispatch w b]))
      by (intros; apply dispatches_of_trigger).
    apply flat_map_singleton.
Qed.

Lemma bookingReminderWhere_true (gte lte : Time) (b : Booking.t) :
  bookingReminderWhere gte lte b = true
  <-> (Booking.status b = Booking_PENDING
       \/ Booking.status b = Booking_CONFIRMED)
      /\ gte <= Booking.startTime b <= lte.
Proof.
  unfold bookingReminderWhere.
  rewrite !andb_true_iff, !Z.leb_le.
  assert (Hs : existsb (bookingStatus_eqb (Booking.status b))
                       [Booking_PENDING; Booking_CONFIRMED] = true
               <-> Booking.status b = Booking_PENDING
                   \/ Booking.status b = Booking_CONFIRMED)
    by (destruct (Booking.status b); cbn; intuition congruence).
  rewrite Hs. tauto.
Qed.

(** C4, as the code has it.  The bookings a reminder scan asks for are
    those with status PENDING or CONFIRMED whose start lies between
    [addDays(now, 1)] and [addDays(addDays(now, 1), 1)], both ends
    included, counted from the moment of the scan; for each of them (and
    for no other booking) the scan dispatches BOOKING_REMINDER once, or
    for none when the query fails.  On a host whose zone keeps one offset
    the two bounds are 24 and 48 hours after the scan, so that a booking
    30 hours ahead is in and bookings 3 or 50 hours ahead are out. *)
Theorem checkBookingReminders_window (w : World) :
  (forall b,
      In b (reminderBookings w)
      <-> In b (bookingTable w)
          /\ (Booking.status b = Booking_PENDING
              \/ Booking.status b = Booking_CONFIRMED)
          /\ addDays w (now w) 1 <= Booking.startTime b
             <= addDays w (addDays w (now w) 1) 1)
  /\ dispatches (newEffects w (after checkBookingReminders w))
     = (if faults w (ticks w) then []
        else map (reminderDispatch w) (reminderBookings w))
  /\ (fixedOffset w ->
      (forall b,
          In b (reminderBookings w)
          <-> In b (bookingTable w)
              /\ (Booking.status b = Booking_PENDING
                  \/ Booking.status b = Booking_CONFIRMED)
              /\ now w + msPerDay <= Booking.startTime b
                 <= now w + 2 * msPerDay)
      /\ (forall b,
            In b (bookingTable w) ->
            Booking.status b = Booking_PENDING
            \/ Booking.status b = Booking_CONFIRMED ->
            Booking.startTime b = now w + 30 * msPerHour ->
            In b (reminderBookings w))
      /\ (forall b,
            Booking.startTime b = now w + 3 * msPerHour
            \/ Booking.startTime b = now w + 50 * msPerHour ->
            ~ In b (reminderBookings w))).
Proof.
  assert (Hchar : forall b,
             In b (reminderBookings w)
             <-> In b (bookingTable w)
                 /\ (Booking.status b = Booking_PENDING
                     \/ Booking.status b = Booking_CONFIRMED)
                 /\ addDays w (now w) 1 <= Booking.startTime b
                    <= addDays w (addDays w (now w) 1) 1).
  { intros b. unfold reminderBookings.
    rewrite filter_In, bookingReminderWhere_true. tauto. }
  split; [exact Hchar|].
  split; [apply checkBookingReminders_dispatches|].
  intros Hzone.
  assert (Hday : forall b,
             In b (reminderBookings w)
             <-> In b (bookingTable w)
                 /\ (Booking.status b = Booking_PENDING
                     \/ Booking.status b = Booking_CONFIRMED)
                 /\ now w + msPerDay <= Booking.startTime b
                    <= now w + 2 * msPerDay).
  { intros b. rewrite Hchar, !(addDays_fixedOffset w) by exact Hzone.
    intuition lia. }
  split; [exact Hday|].
  unfold msPerDay, msPerHour in *. split.
  - intros b Hin Hst Ht. apply Hday. repeat split; try assumption; lia.
  - intros b Ht Hin. apply Hday in Hin as (_ & _ & Hrange). lia.
Qed.

(** A booking 30 hours ahead of an evening scan on a host on UTC; and on
    a host whose clocks go forward an hour during the night after the
    scan, a booking 23 hours ahead. *)
Lemma checkBookingReminders_window_witness :
  (fixedOffset eveningWorld
   /\ In lateBooking (reminderBookings eveningWorld)
   /\ dispatches (newEffects eveningWorld
                    (after checkBookingReminders eveningWorld))
      = [reminderDispatch eveningWorld lateBooking])
  /\ (Booking.startTime shortDayBooking = now shortDayWorld + 23 * msPerHour
      /\ In shortDayBooking (reminderBookings shortDayWorld)).
Proof.
  assert (Hzone : fixedOffset eveningWorld)
    by (exists 0; split; reflexivity).
  pose proof (checkBookingReminders_window eveningWorld)
    as (_ & H2 & H3).
  destruct (H3 Hzone) as (_ & H4 & _).
  split.
  - split; [exact Hzone|]. split; [|exact H2].
    apply H4; [now left | now right | reflexivity].
  - split; [reflexivity|].
    apply (proj1 (checkBookingReminders_window shortDayWorld)).
    split; [now left|]. split; [now left|].
    vm_compute. split; discriminate.
Defined.

(** C4 as the spec words it fails both ways.  At noon a booking at 06:00
    of the next day lies in the window "start of tomorrow to start of the
    day after" but is not asked for and nothing is dispatched; at 20:00 a
    booking 30 hours ahead lies outside that window and is asked for. *)
Lemma checkBookingReminders_not_calendar_day :
  (In earlyBooking (bookingTable noonWorld)
   /\ Booking.status earlyBooking = Booking_PENDING
   /\ specReminderWindow (now noonWorld) earlyBooking = true
   /\ ~ In earlyBooking (reminderBookings noonWorld)
   /\ dispatches (newEffects noonWorld (after checkBookingReminders noonWorld))
      = [])
  /\ (Booking.startTime lateBooking = now eveningWorld + 30 * msPerHour
      /\ specReminderWindow (now eveningWorld) lateBooking = false
      /\ In lateBooking (reminderBookings eveningWorld)).
Proof.
  split.
  - repeat split; try (now left). intros [].
  - repeat split. now left.
Qed.

(* ------------------------------------------------------------------ *)
(** ** C8                                                              *)
(* ------------------------------------------------------------------ *)

Lemma withStatus_id (st : FormSubmissionStatus) (s : FormSubmission.t) :
  FormSubmission.id (FormSubmission.withStatus st s) = FormSubmission.id s.
Proof. reflexivity. Qed.

Lemma markOverdue_nil (l : list FormSubmission.t) :
  map (markOverdue []) l = l.
Proof. rewrite <- (map_id l) at 2. now apply map_ext. Qed.

(** Marking the id [i], then the ids [ids]. *)
Lemma markOverdue_cons (i : string) (ids : list string)
  (l : list FormSubmission.t) :
  map (markOverdue ids)
      (map (fun s => if (FormSubmission.id s =? i)%string
                     then FormSubmission.withStatus OVERDUE s else s) l)
  = map (markOverdue (i :: ids)) l.
Proof.
  rewrite map_map. apply map_ext. intros s. unfold markOverdue.
  cbn [existsb]. destruct (FormSubmission.id s =? i)%string; cbn [orb].
  - rewrite withStatus_id. now destruct (existsb _ ids).
  - reflexivity.
Qed.

Lemma advance_set_forms (t : list FormSubmission.t) rows n d (w : World) :
  advance rows n d (set_formSubmissionTable t w)
  = set_formSubmissionTable t (advance rows n d w).
Proof. reflexivity. Qed.

Lemma set_forms_same (w : World) :
  set_formSubmissionTable (formSubmissionTable w) w = w.
Proof. apply world_eta. Qed.

Lemma prisma_formSubmission_update_advance (i : string)
  (st : FormSubmissionStatus) (w : World) :
  prisma_formSubmission_update i st w
  = if faults w (ticks w) then (inl PrismaError, advance [] 1 [] w)
    else if existsb (fun s => (FormSubmission.id s =? i)%string)
                    (formSubmissionTable w)
    then (inr tt,
          set_formSubmissionTable
            (map (fun s => if (FormSubmission.id s =? i)%string
                           then FormSubmission.withStatus st s else s)
                 (formSubmissionTable w))
            (advance [] 1 [] w))
    else (inl PrismaError, advance [] 1 [] w).
Proof. unfold prisma_formSubmission_update. run. reflexivity. Qed.

Lemma hasRow_marked (i : string) (l : list FormSubmission.t)
  (s : FormSubmission.t) :
  hasRow (map (fun x => if (FormSubmission.id x =? i)%string
                        then FormSubmission.withStatus OVERDUE x else x) l) s
  = hasRow l s.
Proof.
  unfold hasRow. induction l as [|x l IH]; [reflexivity|].
  cbn [map existsb]. rewrite IH. f_equal.
  now destruct (FormSubmission.id x =? i)%string.
Qed.

Lemma hasRow_In (l : list FormSubmission.t) (s : FormSubmission.t) :
  In s l -> hasRow l s = true.
Proof.
  intros Hin. unfold hasRow. apply existsb_exists. exists s.
  split; [exact Hin | apply String.eqb_refl].
Qed.

(** The loop of the overdue scan: it marks a prefix [done] of the
    selected submissions, all of them unless a request fails or a row is
    gone. *)
Lemma overdue_loop (sel : list FormSubmission.t) :
  forall w,
  exists done rest n,
    sel = (done ++ rest)%list
    /\ forOf sel updateOverdue w
       = (match rest with [] => inr tt | _ :: _ => inl PrismaError end,
          set_formSubmissionTable
            (map (markOverdue (map FormSubmission.id done))
                 (formSubmissionTable w))
            (advance [] n [] w))
    /\ (rest = []
        \/ (exists k, faults w (ticks w + k)%nat = true)
        \/ (exists s, In s sel /\ hasRow (formSubmissionTable w) s = false)).
Proof.
  induction sel as [|s sel IH]; intros w.
  - exists [], [], 0%nat. repeat split; [|now left].
    cbn [forOf map]. rewrite markOverdue_nil, advance_zero, set_forms_same.
    reflexivity.
  - cbn [forOf]. unfold bind. unfold updateOverdue at 1.
    rewrite prisma_formSubmission_update_advance.
    destruct (faults w (ticks w)) eqn:Hf.
    { exists [], (s :: sel), 1%nat. repeat split.
      - cbn [map]. rewrite markOverdue_nil.
        now rewrite <- (set_forms_same (advance [] 1 [] w)) at 1.
      - right; left. exists 0%nat. now rewrite Nat.add_0_r. }
    fold (hasRow (formSubmissionTable w) s).
    destruct (hasRow (formSubmissionTable w) s) eqn:Hrow.
    2:{ exists [], (s :: sel), 1%nat. repeat split.
        - cbn [map]. rewrite markOverdue_nil.
          now rewrite <- (set_forms_same (advance [] 1 [] w)) at 1.
        - right; right. exists s. split; [now left | exact Hrow]. }
    match goal with
    | |- context [forOf sel updateOverdue ?w1] =>
        destruct (IH w1) as (done & rest & n & Hsel & Hrun & Hwhy)
    end.
    exists (s :: done), rest, (1 + n)%nat. split; [now rewrite Hsel|].
    split.
    + rewrite Hrun. f_equal.
      cbn [formSubmissionTable set_formSubmissionTable advance map].
      rewrite markOverdue_cons. unfold set_formSubmissionTable, advance.
      cbn. rewrite !app_nil_r. f_equal. lia.
    + destruct Hwhy as [Hrest|[(k & Hk)|(s' & Hin & Hs')]].
      * now left.
      * right; left. exists (1 + k)%nat. cbn in Hk.
        now rewrite Nat.add_assoc.
      * right; right. exists s'. split; [now right|].
        cbn [formSubmissionTable set_formSubmissionTable] in Hs'.
        now rewrite hasRow_marked in Hs'.
Qed.

(** One run of the overdue scan, whatever fails: a prefix of the
    selected submissions is marked, nothing else changes but the request
    count, and at most the scan's own error line is logged. *)
Lemma checkOverdueForms_summary (w : World) :
  exists done rest n d,
    filter (overdueFormWhere (now w)) (formSubmissionTable w)
    = (done ++ rest)%list
    /\ checkOverdueForms w
       = (inr tt,
          set_formSubmissionTable
            (map (markOverdue (map FormSubmission.id done))
                 (formSubmissionTable w))
            (advance [] n d w))
    /\ (d = [] \/ d = [overdueError])
    /\ (faultFree w -> rest = []).
Proof.
  unfold checkOverdueForms, prisma_formSubmission_findMany. run.
  destruct (faults w (ticks w)) eqn:Hf.
  - run. exists [], (filter (overdueFormWhere (now w)) (formSubmissionTable w)),
      1%nat, [overdueError].
    repeat split.
    + cbn [map]. rewrite markOverdue_nil.
      now rewrite <- (set_forms_same (advance [] 1 [overdueError] w)) at 1.
    + now right.
    + intros Hff. rewrite Hff in Hf. discriminate.
  - run.
    change (formSubmissionTable (advance [] 1 [] w))
      with (formSubmissionTable w).
    change (fun submission : FormSubmission.t =>
              prisma_formSubmission_update (FormSubmission.id submission) OVERDUE)
      with updateOverdue.
    destruct (overdue_loop
                (filter (overdueFormWhere (now w)) (formSubmissionTable w))
                (advance [] 1 [] w))
      as (done & rest & n & Hsel & Hrun & Hwhy).
    rewrite Hrun.
    assert (Hrest : faultFree w -> rest = []).
    { intros Hff. destruct Hwhy as [H|[(k & Hk)|(s & Hin & Hs)]].
      - exact H.
      - cbn in Hk. rewrite Hff in Hk. discriminate.
      - apply filter_In in Hin as [Hin _].
        cbn [formSubmissionTable advance] in Hs.
        rewrite hasRow_In in Hs by assumption. discriminate. }
    destruct rest as [|r rest].
    + exists done, [], (1 + n)%nat, []. repeat split; auto.
      unfold set_formSubmissionTable, advance. cbn.
      rewrite !app_nil_r. do 2 f_equal. lia.
    + exists done, (r :: rest), (1 + n)%nat, [overdueError].
      repeat split; auto.
      rewrite record_advance, advance_set_forms. autorewrite with world.
      unfold set_formSubmissionTable, advance. cbn.
      rewrite !app_nil_r. do 2 f_equal; lia.
Qed.

Lemma unique_id_determines (l : list FormSubmission.t)
  (x y : FormSubmission.t) :
  uniqueIds l -> In x l -> In y l ->
  FormSubmission.id x = FormSubmission.id y -> x = y.
Proof.
  unfold uniqueIds. induction l as [|z l IH]; intros Hnd Hx Hy Hid;
    [destruct Hx|].
  cbn [map] in Hnd. inversion Hnd as [|? ? Hnot Hnd']; subst.
  destruct Hx as [->|Hx], Hy as [->|Hy].
  - reflexivity.
  - exfalso. apply Hnot. rewrite Hid. now apply in_map.
  - exfalso. apply Hnot. rewrite <- Hid. now apply in_map.
  - now apply IH.
Qed.

(** With unique ids, marking the ids of selected rows marks selected
    rows only. *)
Lemma markOverdue_selected (now_ : Time) (table done rest : list FormSubmission.t)
  (s : FormSubmission.t) :
  uniqueIds table ->
  filter (overdueFormWhere now_) table = (done ++ rest)%list ->
  In s table ->
  existsb (String.eqb (FormSubmission.id s)) (map FormSubmission.id done) = true ->
  overdueFormWhere now_ s = true.
Proof.
  intros Hu Hsel Hin Hex.
  apply existsb_exists in Hex as (i & Hi & Heq).
  apply String.eqb_eq in Heq. apply in_map_iff in Hi as (s0 & Hid & Hs0).
  assert (Hs0' : In s0 (filter (overdueFormWhere now_) table))
    by (rewrite Hsel; apply in_or_app; now left).
  apply filter_In in Hs0' as [Hs0t Hw].
  assert (s0 = s) by (apply (unique_id_determines table); congruence).
  now subst.
Qed.

Lemma markOverdue_all (now_ : Time) (table : list FormSubmission.t)
  (s : FormSubmission.t) :
  uniqueIds table -> In s table ->
  markOverdue (map FormSubmission.id (filter (overdueFormWhere now_) table)) s
  = overdueTransition now_ s.
Proof.
  intros Hu Hin. unfold markOverdue, overdueTransition.
  destruct (existsb _ _) eqn:Hex.
  - rewrite (markOverdue_selected now_ table
               (filter (overdueFormWhere now_) table) [] s); auto.
    now rewrite app_nil_r.
  - destruct (overdueFormWhere now_ s) eqn:Hw; [|reflexivity].
    exfalso. apply not_true_iff_false in Hex. apply Hex.
    apply existsb_exists. exists (FormSubmission.id s).
    split; [|apply String.eqb_refl].
    apply in_map. apply filter_In. now split.
Qed.

Lemma Forall2_map_In {A B : Type} (R : A -> B -> Prop) (g : A -> B)
  (l : list A) :
  (forall x, In x l -> R x (g x)) -> Forall2 R l (map g l).
Proof.
  induction l as [|x l IH]; intros H; [constructor|].
  cbn [map]. constructor; [apply H; now left|].
  apply IH. intros y Hy. apply H. now right.
Qed.

Lemma overdueTransition_twice (now_ : Time) (s : FormSubmission.t) :
  overdueTransition now_ (overdueTransition now_ s) = overdueTransition now_ s.
Proof.
  unfold overdueTransition.
  destruct (overdueFormWhere now_ s) eqn:Hw; [|now rewrite Hw].
  reflexivity.
Qed.

Lemma overdueFormWhere_true (now_ : Time) (s : FormSubmission.t) :
  overdueFormWhere now_ s = true
  <-> FormSubmission.status s = PENDING
      /\ exists due, FormSubmission.dueDate s = Some due /\ due < now_.
Proof.
  unfold overdueFormWhere. rewrite andb_true_iff.
  assert (Hs : formStatus_eqb (FormSubmission.status s) PENDING = true
               <-> FormSubmission.status s = PENDING)
    by (destruct (FormSubmission.status s); cbn; intuition congruence).
  rewrite Hs. destruct (FormSubmission.dueDate s) as [due|].
  - rewrite Z.ltb_lt. split.
    + intros [H1 H2]. split; [exact H1|]. now exists due.
    + intros [H1 (due' & Heq & Hlt)]. inversion Heq; subst. now split.
  - split; [intros [_ H]; discriminate|].
    intros [_ (due' & Heq & _)]. discriminate.
Qed.

Lemma newEffects_set_forms (t : list FormSubmission.t) rows n d (w : World) :
  newEffects w (set_formSubmissionTable t (advance rows n d w)) = d.
Proof. unfold newEffects. cbn. apply skipn_exact. Qed.

Lemma steady_forms (w w' : World) :
  steady w w' -> formSubmissionTable w' = formSubmissionTable w.
Proof. now intros (r & n & d & ->). Qed.

Lemma sameButStatus_refl (s : FormSubmission.t) : sameButStatus s s.
Proof. repeat split. Qed.

Lemma sameButStatus_withStatus (st : FormSubmissionStatus)
  (s : FormSubmission.t) :
  sameButStatus s (FormSubmission.withStatus st s).
Proof. repeat split. Qed.

(** C8.  One run of the overdue scan, when no request fails, gives
    status OVERDUE to exactly the submissions that are PENDING with a due
    date before now, and leaves every other submission's status and
    every other field of every submission as they are.  Whatever fails, a
    run changes a submission in no other way than the status of a
    PENDING-and-past-due one to OVERDUE, so a submission that is not
    PENDING (an OVERDUE one in particular) keeps its status, and a second
    run changes nothing.  The scan returns normally, dispatches no
    trigger, runs no rule, calls no channel and creates no alert.  No
    other operation of the engine writes a submission. *)
Theorem checkOverdueForms_transition :
  (forall w,
      faultFree w -> uniqueIds (formSubmissionTable w) ->
      formSubmissionTable (after checkOverdueForms w)
      = map (overdueTransition (now w)) (formSubmissionTable w))
  /\ (forall w,
        faultFree w -> uniqueIds (formSubmissionTable w) ->
        Forall2
          (fun s s' =>
             sameButStatus s s'
             /\ (FormSubmission.status s = PENDING /\ pastDue (now w) s ->
                 FormSubmission.status s' = OVERDUE)
             /\ (~ (FormSubmission.status s = PENDING /\ pastDue (now w) s) ->
                 FormSubmission.status s' = FormSubmission.status s))
          (formSubmissionTable w)
          (formSubmissionTable (after checkOverdueForms w)))
  /\ (forall w,
        uniqueIds (formSubmissionTable w) ->
        Forall2
          (fun s s' =>
             sameButStatus s s'
             /\ (FormSubmission.status s' = FormSubmission.status s
                 \/ (FormSubmission.status s = PENDING
                     /\ pastDue (now w) s
                     /\ FormSubmission.status s' = OVERDUE)))
          (formSubmissionTable w)
          (formSubmissionTable (after checkOverdueForms w)))
  /\ (forall w,
        faultFree w -> uniqueIds (formSubmissionTable w) ->
        formSubmissionTable
          (after checkOverdueForms (after checkOverdueForms w))
        = formSubmissionTable (after checkOverdueForms w))
  /\ (forall w,
        outcome checkOverdueForms w = inr tt
        /\ dispatches (newEffects w (after checkOverdueForms w)) = []
        /\ executions (newEffects w (after checkOverdueForms w)) = []
        /\ emailCalls (newEffects w (after checkOverdueForms w)) = []
        /\ smsCalls (newEffects w (after checkOverdueForms w)) = []
        /\ alertTable (after checkOverdueForms w) = alertTable w)
  /\ (forall w,
        formSubmissionTable (after every15Minutes w) = formSubmissionTable w
        /\ (forall ws trig context,
              formSubmissionTable (after (triggerAutomation ws trig context) w)
              = formSubmissionTable w)
        /\ (forall a context,
              formSubmissionTable (after (executeAutomation a context) w)
              = formSubmissionTable w)
        /\ formSubmissionTable (after startAutomationEngine w)
           = formSubmissionTable w).
Proof.
  assert (Hexact : forall w,
             faultFree w -> uniqueIds (formSubmissionTable w) ->
             formSubmissionTable (after checkOverdueForms w)
             = map (overdueTransition (now w)) (formSubmissionTable w)).
  { intros w Hff Hu.
    destruct (checkOverdueForms_summary w)
      as (done & rest & n & d & Hsel & Hrun & _ & Hrest).
    rewrite (Hrest Hff), app_nil_r in Hsel. subst done.
    unfold after. rewrite Hrun. cbn [snd formSubmissionTable set_formSubmissionTable].
    apply map_ext_in. intros s Hin. now apply markOverdue_all. }
  split; [exact Hexact|]. split; [|split; [|split; [|split]]].
  - intros w Hff Hu. rewrite (Hexact w Hff Hu).
    apply Forall2_map_In. intros s _. unfold overdueTransition.
    destruct (overdueFormWhere (now w) s) eqn:Hw.
    + split; [apply sameButStatus_withStatus|].
      split; [reflexivity|]. intros Hnot. exfalso. apply Hnot.
      now apply overdueFormWhere_true.
    + split; [apply sameButStatus_refl|].
      split; [|reflexivity]. intros Hyes.
      apply overdueFormWhere_true in Hyes. congruence.
  - intros w Hu.
    destruct (checkOverdueForms_summary w)
      as (done & rest & n & d & Hsel & Hrun & _ & _).
    unfold after. rewrite Hrun. cbn [snd formSubmissionTable set_formSubmissionTable].
    apply Forall2_map_In. intros s Hin. unfold markOverdue.
    destruct (existsb _ _) eqn:Hex.
    + pose proof (markOverdue_selected (now w) _ done rest s Hu Hsel Hin Hex)
        as Hw.
      apply overdueFormWhere_true in Hw as [Hst Hdue].
      split; [apply sameButStatus_withStatus|]. right. auto.
    + split; [apply sameButStatus_refl | now left].
  - intros w Hff Hu.
    set (w1 := after checkOverdueForms w).
    assert (Hw1 : exists t n d,
               w1 = set_formSubmissionTable t (advance [] n d w)).
    { destruct (checkOverdueForms_summary w)
        as (done & rest & n & d & _ & Hrun & _ & _).
      subst w1. unfold after. rewrite Hrun. cbn [snd]. eauto. }
    destruct Hw1 as (t & n & d & Hw1).
    assert (Hnow : now w1 = now w) by now rewrite Hw1.
    assert (Hff1 : faultFree w1) by (intros k; rewrite Hw1; apply Hff).
    assert (Ht : formSubmissionTable w1
                 = map (overdueTransition (now w)) (formSubmissionTable w))
      by (subst w1; now apply Hexact).
    assert (Hu1 : uniqueIds (formSubmissionTable w1)).
    { unfold uniqueIds. rewrite Ht, map_map.
      erewrite map_ext; [exact Hu|].
      intros s. unfold overdueTransition.
      now destruct (overdueFormWhere (now w) s). }
    rewrite (Hexact w1 Hff1 Hu1), Hnow, Ht, map_map.
    apply map_ext. intros s. apply overdueTransition_twice.
  - intros w.
    destruct (checkOverdueForms_summary w)
      as (done & rest & n & d & _ & Hrun & Hd & _).
    unfold outcome, after. rewrite Hrun. cbn [fst snd].
    rewrite newEffects_set_forms.
    split; [reflexivity|].
    destruct Hd as [->| ->]; repeat split; cbn; apply app_nil_r.
  - intros w. split; [|split; [|split]].
    + apply steady_forms. apply steadyM_every15Minutes.
    + intros. apply steady_forms. apply triggerAutomation_steady.
    + intros. apply steady_forms. apply executeAutomation_steady.
    + reflexivity.
Qed.

(** The spec's P6: of four submissions the one that is PENDING and was
    due yesterday gets status OVERDUE and keeps its other fields, the
    other three (due tomorrow, without due date, COMPLETED and past due)
    stay as they are, and a second run changes nothing. *)
Lemma checkOverdueForms_transition_witness :
  formSubmissionTable (after checkOverdueForms formsWorld)
  = [FormSubmission.make "f1" OVERDUE (day10 - 3 * msPerDay)
       (Some (day10 - msPerDay)) "Intake" sam None;
     dueTomorrow; noDueDate; completedLate]
  /\ map FormSubmission.status (formSubmissionTable formsWorld)
     = [PENDING; PENDING; PENDING; COMPLETED]
  /\ map FormSubmission.status
         (formSubmissionTable (after checkOverdueForms formsWorld))
     = [OVERDUE; PENDING; PENDING; COMPLETED]
  /\ formSubmissionTable
       (after checkOverdueForms (after checkOverdueForms formsWorld))
     = formSubmissionTable (after checkOverdueForms formsWorld).
Proof.
  assert (Hff : faultFree formsWorld) by (intros n; reflexivity).
  assert (Hu : uniqueIds (formSubmissionTable formsWorld)).
  { unfold uniqueIds. cbn.
    repeat (constructor; [cbn; intuition discriminate|]). constructor. }
  pose proof (proj1 checkOverdueForms_transition formsWorld Hff Hu) as Hrun.
  split; [exact Hrun|]. split; [reflexivity|]. split.
  - rewrite Hrun. reflexivity.
  - exact (proj1 (proj2 (proj2 (proj2 checkOverdueForms_transition)))
             formsWorld Hff Hu).
Defined.

(* ------------------------------------------------------------------ *)
(** ** C9                                                              *)
(* ------------------------------------------------------------------ *)

Lemma checkInventoryItem_advance (item : InventoryItem.t) (w : World) :
  checkInventoryItem item w
  = if faults w (ticks w) then (inl PrismaError, advance [] 1 [] w)
    else match recentAlert w item with
         | Some _ => (inr tt, advance [] 1 [] w)
         | None =>
             triggerAutomation (InventoryItem.workspaceId item) INVENTORY_LOW
               (inventoryContext item) (advance [] 1 [] w)
         end.
Proof.
  unfold checkInventoryItem, prisma_alert_findFirst. run.
  destruct (faults w (ticks w)); run; [reflexivity|].
  fold (recentAlert w item). now destruct (recentAlert w item).
Qed.

(** The loop body dispatches for an item exactly when its guard query
    goes through and finds no recent alert. *)
Lemma checkInventoryItem_dispatches (item : InventoryItem.t) (w : World) :
  dispatches (newEffects w (after (checkInventoryItem item) w))
  = if faults w (ticks w) then []
    else match recentAlert w item with
         | Some _ => []
         | None => [inventoryDispatch item]
         end.
Proof.
  unfold after. rewrite checkInventoryItem_advance.
  destruct (faults w (ticks w)); cbn [snd];
    [now rewrite newEffects_advance|].
  destruct (recentAlert w item); cbn [snd];
    [now rewrite newEffects_advance|].
  fold (after (triggerAutomation (InventoryItem.workspaceId item)
                 INVENTORY_LOW (inventoryContext item)) (advance [] 1 [] w)).
  rewrite (newEffects_trans w (advance [] 1 [] w))
    by (first [apply steady_advance | apply triggerAutomation_steady]).
  rewrite newEffects_advance. cbn [app]. apply dispatches_of_trigger.
Qed.


Lemma find_app_none {A : Type} (p : A -> bool) (l1 l2 : list A) :
  find p (l1 ++ l2) = None -> find p l1 = None.
Proof.
  induction l1 as [|x l1 IH]; [reflexivity|]. cbn [app find].
  destruct (p x); [discriminate | exact IH].
Qed.

(** Alerts are only added and the clock is the scan's: an item without
    recent alert later in the scan had none at its start. *)
Lemma recentAlert_none_earlier (w0 w : World) (item : InventoryItem.t) :
  steady w0 w -> recentAlert w item = None -> recentAlert w0 item = None.
Proof.
  intros (r & n & d & ->). unfold recentAlert. rewrite addDays_advance.
  cbn [now alertTable advance]. apply find_app_none.
Qed.

Lemma inventory_loop_dispatches (items : list InventoryItem.t) (w0 : World) :
  forall w entry,
    steady w0 w ->
    In entry
       (dispatches (newEffects w (after (forOf items checkInventoryItem) w))) ->
    exists item,
      In item items /\ entry = inventoryDispatch item
      /\ recentAlert w0 item = None.
Proof.
  induction items as [|x items IH]; intros w entry Hw Hin.
  - unfold after in Hin. cbn [forOf ret snd] in Hin.
    rewrite newEffects_refl in Hin. destruct Hin.
  - assert (Hstep : forall e,
               In e (dispatches
                       (newEffects w (after (checkInventoryItem x) w))) ->
               e = inventoryDispatch x /\ recentAlert w0 x = None).
    { intros e He. rewrite checkInventoryItem_dispatches in He.
      destruct (faults w (ticks w)); [destruct He|].
      destruct (recentAlert w x) eqn:Hr; [destruct He|].
      destruct He as [<-|[]]. split; [reflexivity|].
      now apply (recentAlert_none_earlier w0 w). }
    unfold after in Hin. cbn [forOf] in Hin. rewrite after_bind in Hin.
    destruct (outcome (checkInventoryItem x) w).
    + cbn [snd] in Hin. apply Hstep in Hin as [-> Hr].
      exists x. repeat split; [now left | exact Hr].
    + fold (after (forOf items checkInventoryItem)
                  (after (checkInventoryItem x) w)) in Hin.
      rewrite (newEffects_trans w (after (checkInventoryItem x) w)) in Hin
        by (first [apply steadyM_checkInventoryItem
                  | apply steadyM_forOf; intros;
                    apply steadyM_checkInventoryItem]).
      rewrite dispatches_app in Hin. apply in_app_or in Hin as [Hin|Hin].
      * apply Hstep in Hin as [-> Hr].
        exists x. repeat split; [now left | exact Hr].
      * apply IH in Hin as (item & Hitem & He & Hr).
        -- exists item. repeat split; [now right | exact He | exact Hr].
        -- eapply steady_trans; [exact Hw|].
           apply steadyM_checkInventoryItem.
Qed.

Lemma checkInventoryLevels_advance (w : World) :
  checkInventoryLevels w
  = if faults w (ticks w)
    then (inr tt,
          advance [] 1 [ConsoleError "Error checking inventory levels:"] w)
    else tryCatch
           (forOf (filter lowStockWhere (inventoryItemTable w))
                  checkInventoryItem)
           (fun _ => consoleError "Error checking inventory levels:")
           (advance [] 1 [] w).
Proof.
  unfold checkInventoryLevels, prisma_inventoryItem_findMany. run.
  destruct (faults w (ticks w)); run; reflexivity.
Qed.



Lemma recentAlert_advance_nil n d (w : World) (item : InventoryItem.t) :
  recentAlert (advance [] n d w) item = recentAlert w item.
Proof.
  unfold recentAlert. rewrite addDays_advance.
  cbn [now alertTable advance]. now rewrite app_nil_r.
Qed.

(** A loop over items that all have a recent alert adds no alert and
    logs nothing. *)
Lemma inventory_loop_quiet (items : list InventoryItem.t) :
  forall w,
    (forall item, In item items -> recentAlert w item <> None) ->
    exists out n,
      forOf items checkInventoryItem w = (out, advance [] n [] w).
Proof.
  induction items as [|x items IH]; intros w Hall.
  - exists (inr tt), 0%nat. cbn [forOf ret]. now rewrite advance_zero.
  - cbn [forOf]. unfold bind. rewrite checkInventoryItem_advance.
    destruct (faults w (ticks w)); [now exists (inl PrismaError), 1%nat|].
    destruct (recentAlert w x) eqn:Hx;
      [|exfalso; now apply (Hall x (or_introl eq_refl))].
    destruct (IH (advance [] 1 [] w)) as (out & n & Hrun).
    + intros item Hin. rewrite recentAlert_advance_nil. apply Hall. now right.
    + rewrite Hrun, advance_advance. now exists out, (1 + n)%nat.
Qed.

Lemma checkInventoryLevels_quiet (w : World) :
  (forall item,
      In item (inventoryItemTable w) -> lowStockWhere item = true ->
      recentAlert w item <> None) ->
  alertTable (after checkInventoryLevels w) = alertTable w
  /\ dispatches (newEffects w (after checkInventoryLevels w)) = [].
Proof.
  intros Hall. unfold after. rewrite checkInventoryLevels_advance.
  destruct (faults w (ticks w)); cbn [snd].
  { rewrite newEffects_advance. cbn. now rewrite app_nil_r. }
  destruct (inventory_loop_quiet
              (filter lowStockWhere (inventoryItemTable w))
              (advance [] 1 [] w)) as (out & n & Hrun).
  { intros item Hin. apply filter_In in Hin as [Hin Hlow].
    rewrite recentAlert_advance_nil. now apply Hall. }
  unfold tryCatch. rewrite Hrun, advance_advance.
  destruct out as [e|[]]; cbn [snd].
  - unfold consoleError. rewrite record_advance, advance_advance. cbn [snd].
    rewrite newEffects_advance. cbn. now rewrite !app_nil_r.
  - rewrite newEffects_advance. cbn. now rewrite app_nil_r.
Qed.



(** One low-stock item without recent alert and one enabled create-alert
    rule for its workspace: a fault-free scan adds that rule's alert and
    nothing else. *)
Lemma checkInventoryLevels_one_alert
  (w : World) (item : InventoryItem.t) (rule : Automation.t)
  (title message : JsValue) (row : Alert.t) :
  faultFree w ->
  filter lowStockWhere (inventoryItemTable w) = [item] ->
  recentAlert w item = None ->
  matching (InventoryItem.workspaceId item) INVENTORY_LOW w = [rule] ->
  Automation.action rule = CREATE_ALERT ->
  replaceVariables (get (Automation.config rule) "title")
                   (inventoryContext item) = inr title ->
  replaceVariables (get (Automation.config rule) "message")
                   (inventoryContext item) = inr message ->
  alertRow (now w) (alertData rule (inventoryContext item) title message)
  = Some row ->
  alertTable (after checkInventoryLevels w) = (alertTable w ++ [row])%list.
Proof.
  intros Hff Hitems Hnone Hrules Hact Htitle Hmsg Hrow.
  unfold after. rewrite checkInventoryLevels_advance, Hff, Hitems.
  unfold tryCatch. cbn [forOf]. unfold bind.
  rewrite checkInventoryItem_advance. autorewrite with world.
  rewrite Hff, recentAlert_advance_nil, Hnone.
  rewrite triggerAutomation_advance. autorewrite with world.
  rewrite Hff. unfold matching in *. autorewrite with world.
  rewrite Hrules. cbn [fold_left ret]. unfold after.
  rewrite executeAutomation_alert by assumption.
  autorewrite with world. rewrite Htitle, Hmsg, Hrow, Hff.
  destruct (ioInstance w); cbn; now rewrite !app_nil_r.
Qed.




(* ------------------------------------------------------------------ *)
(** ** Further properties of the engine                                *)
(* ------------------------------------------------------------------ *)

(** X1.  What a send-email rule hands to the channel when the context,
    with identifiers for keys, has an address and the body is a
    template: the address, the configured subject as it stands or
    "Notification", and the rendered body -- in one call. *)
Theorem executeAutomation_email_payload
  (a : Automation.t) (context : Object) (w : World) (template : string) :
  forallb identifier (keys context) = true ->
  Automation.action a = SEND_EMAIL ->
  truthy (get context "email") = true ->
  get (Automation.config a) "body" = JsString template ->
  exists body,
    replaceVariables (JsString template) context = inr (JsString body)
    /\ emailCalls (newEffects w (after (executeAutomation a context) w))
       = [mkEmail (get context "email")
                  (or_else (get (Automation.config a) "subject")
                           (JsString "Notification"))
                  (JsString body)].
Proof.
  intros _ Hact Hmail Hbody.
  assert (Hr : forall ks s, exists body,
               replaceEach ks context (JsString s) = inr (JsString body)).
  { induction ks as [|k ks IH]; intros s; [now exists s|].
    cbn [replaceEach]. apply IH. }
  destruct (Hr (keys context) template) as (body & Hrender).
  exists body. split; [exact Hrender|].
  apply executeAutomation_email_call; auto. now rewrite Hbody.
Qed.

Lemma executeAutomation_email_payload_witness :
  exists body,
    replaceVariables (JsString "See you on {{bookingDate}}") reminderContext
    = inr (JsString body)
    /\ emailCalls
         (newEffects (emptyWorld 0)
            (after (executeAutomation plainMailRule reminderContext)
                   (emptyWorld 0)))
       = [mkEmail (JsString "sam@example.com") (JsString "Notification")
                  (JsString body)].
Proof.
  exact (executeAutomation_email_payload plainMailRule reminderContext
           (emptyWorld 0) "See you on {{bookingDate}}"
           eq_refl eq_refl eq_refl eq_refl).
Defined.

Lemma tryCatch_logged (m : M unit) (message : string) (w : World) :
  outcome (tryCatch m (fun _ => consoleError message)) w = inr tt.
Proof.
  unfold outcome, tryCatch. destruct (m w) as [[e|[]] w']; reflexivity.
Qed.

(** X4.  The jobs the scheduler runs return normally, whatever requests
    fail: no scan lets an exception out. *)
Theorem scheduled_jobs_return (w : World) :
  outcome every15Minutes w = inr tt /\ outcome everyHour w = inr tt.
Proof.
  split; [|apply tryCatch_logged].
  unfold every15Minutes, outcome. rewrite after_bind.
  unfold checkBookingReminders at 1. rewrite tryCatch_logged.
  rewrite after_bind.
  unfold checkPendingForms at 1. rewrite tryCatch_logged.
  apply tryCatch_logged.
Qed.

(* ------------------------------------------------------------------ *)
(** ** More on the template renderer                                   *)
(* ------------------------------------------------------------------ *)




Lemma replaceEach_string (ks : list string) (context : Object) (t : string) :
  exists s, replaceEach ks context (JsString t) = inr (JsString s).
Proof.
  revert t. induction ks as [|k ks IH]; intros t; [now exists t|].
  cbn [replaceEach]. apply IH.
Qed.

(** X5.  For a context whose keys are identifiers: on a string template
    [replaceVariables] never throws and gives a string; a template in
    which no placeholder of a context key occurs comes back unchanged
    (so with the empty context every template does).  On a template that
    is not a string (a missing configuration field) it throws a
    TypeError as soon as the context has a key, and hands the value back
    when the context is empty. *)
Theorem replaceVariables_edge_cases (context : Object) :
  forallb identifier (keys context) = true ->
  (forall t, exists s,
      replaceVariables (JsString t) context = inr (JsString s))
  /\ (forall t,
        (forall k, In k (keys context) ->
                   includes (placeholder k) t = false) ->
        replaceVariables (JsString t) context = inr (JsString t))
  /\ (forall v,
        (forall t, v <> JsString t) ->
        replaceVariables v context
        = match context with
          | [] => inr v
          | _ :: _ => inl TypeError
          end).
Proof.
  intros _.
  split; [intros t; apply replaceEach_string|].
  split; [intros t H; now apply replaceEach_unchanged|].
  intros v Hv. unfold replaceVariables.
  destruct context as [|[k x] context]; [reflexivity|].
  cbn [keys map fst replaceEach].
  destruct v; try reflexivity. now destruct (Hv s).
Qed.

Lemma replaceVariables_edge_cases_witness :
  replaceVariables (JsString "Dear customer") samContext
  = inr (JsString "Dear customer")
  /\ replaceVariables JsUndefined samContext = inl TypeError.
Proof.
  pose proof (replaceVariables_edge_cases samContext eq_refl)
    as (_ & H2 & H3).
  split.
  - apply H2. intros k Hk. cbn in Hk.
    destruct Hk as [<-|[<-|[<-|[]]]]; reflexivity.
  - apply (H3 JsUndefined). discriminate.
Defined.

Lemma instantiate_wellFormed (context : Object) (segs : list Segment) :
  wellFormed segs = true -> plainValues context = true ->
  wellFormed (instantiate context segs) = true.
Proof.
  intros Hwf Hplain. unfold instantiate, wellFormed in *.
  rewrite forallb_forall in Hwf |- *. intros seg Hin.
  apply in_map_iff in Hin as (seg0 & <- & Hin0).
  specialize (Hwf seg0 Hin0). destruct seg0 as [t|k]; [exact Hwf|].
  cbn [fillKeys]. destruct (existsb _ _) eqn:Hex; [|exact Hwf].
  apply existsb_exists in Hex as (k' & Hk' & Heq).
  apply String.eqb_eq in Heq. subst k'.
  unfold plainValues in Hplain.
  pose proof (forallb_In _ _ _ Hplain Hk') as H.
  now apply andb_true_iff in H as [H _].
Qed.

Lemma instantiate_twice (context : Object) (segs : list Segment) :
  instantiate context (instantiate context segs) = instantiate context segs.
Proof.
  unfold instantiate. rewrite map_map. apply map_ext.
  intros [t|k]; [reflexivity|]. cbn [fillKeys].
  destruct (existsb _ _) eqn:Hex; [reflexivity|].
  cbn [fillKeys]. now rewrite Hex.
Qed.

(** X6.  Rendering is idempotent on well-formed templates with plain
    values: rendering the output again with the same context changes
    nothing. *)
Theorem replaceVariables_idempotent
  (segs : list Segment) (context : Object) :
  wellFormed segs = true ->
  forallb identifier (keys context) = true ->
  plainValues context = true ->
  exists out,
    replaceVariables (JsString (flatten segs)) context = inr (JsString out)
    /\ replaceVariables (JsString out) context = inr (JsString out).
Proof.
  intros Hwf Hid Hplain. exists (flatten (instantiate context segs)).
  split; [now apply replaceVariables_segments|].
  rewrite replaceVariables_segments;
    auto using instantiate_wellFormed.
  now rewrite instantiate_twice.
Qed.

Lemma replaceVariables_idempotent_witness :
  exists out,
    replaceVariables (JsString "Hi {{contactName}}, {{missing}}") samContext
    = inr (JsString out)
    /\ replaceVariables (JsString out) samContext = inr (JsString out).
Proof.
  exact (replaceVariables_idempotent
           [Lit "Hi "; Hole "contactName"; Lit ", "; Hole "missing"]
           samContext eq_refl eq_refl eq_refl).
Defined.

(* ------------------------------------------------------------------ *)
(** ** More on the rule executor                                       *)
(* ------------------------------------------------------------------ *)

Lemma replaceVariables_string (context : Object) (t : string) :
  exists s, replaceVariables (JsString t) context = inr (JsString s).
Proof. apply replaceEach_string. Qed.

Lemma replaceVariables_not_string (context : Object) (v : JsValue) :
  (forall t, v <> JsString t) ->
  replaceVariables v context
  = match context with
    | [] => inr v
    | _ :: _ => inl TypeError
    end.
Proof.
  intros Hv. unfold replaceVariables.
  destruct context as [|[k x] context]; [reflexivity|].
  cbn [keys map fst replaceEach].
  destruct v; try reflexivity. now destruct (Hv s).
Qed.

(** X7.  What a send-SMS rule does when the context, with identifiers
    for keys, has a phone number and the message is a template: one call
    of the channel with the number and the rendered message.  The message is delivered when the
    provider is Twilio and its request succeeds; when the request fails
    two error lines are logged; with any other provider nothing is sent,
    no request is made and no error is logged. *)
Theorem executeAutomation_sms_payload
  (a : Automation.t) (context : Object) (w : World) (template : string) :
  forallb identifier (keys context) = true ->
  Automation.action a = SEND_SMS ->
  truthy (get context "phone") = true ->
  get (Automation.config a) "message" = JsString template ->
  exists body,
    replaceVariables (JsString template) context = inr (JsString body)
    /\ smsCalls (newEffects w (after (executeAutomation a context) w))
       = [mkSMS (get context "phone") (JsString body)]
    /\ smsDeliveries (newEffects w (after (executeAutomation a context) w))
       = (if (smsProvider w =? "twilio")%string && negb (faults w (ticks w))
          then [mkSMS (get context "phone") (JsString body)] else [])
    /\ consoleErrors (newEffects w (after (executeAutomation a context) w))
       = (if (smsProvider w =? "twilio")%string && faults w (ticks w)
          then ["Error sending SMS:"; "Error executing automation:"] else [])
    /\ ticks (after (executeAutomation a context) w)
       = (ticks w + if (smsProvider w =? "twilio")%string then 1 else 0)%nat.
Proof.
  intros _ Hact Hphone Hmsg.
  destruct (replaceVariables_string context template) as (body & Hbody).
  exists body. split; [exact Hbody|].
  unfold after. rewrite executeAutomation_sms by assumption.
  rewrite Hphone, Hmsg, Hbody. cbv zeta.
  destruct (smsProvider w =? "twilio")%string;
    [destruct (faults w (ticks w))|];
    cbn [snd andb negb]; rewrite newEffects_advance; repeat split.
Qed.

Lemma executeAutomation_sms_payload_witness :
  exists body,
    replaceVariables (JsString "Welcome {{contactName}}") samContext
    = inr (JsString body)
    /\ smsCalls
         (newEffects (emptyWorld 0)
            (after (executeAutomation welcomeOff samContext) (emptyWorld 0)))
       = [mkSMS (JsString "+15550100") (JsString body)]
    /\ smsDeliveries
         (newEffects (emptyWorld 0)
            (after (executeAutomation welcomeOff samContext) (emptyWorld 0)))
       = [mkSMS (JsString "+15550100") (JsString body)].
Proof.
  destruct (executeAutomation_sms_payload welcomeOff samContext (emptyWorld 0)
              "Welcome {{contactName}}" eq_refl eq_refl eq_refl eq_refl)
    as (body & H1 & H2 & H3 & _).
  exists body. auto.
Defined.

(** X8.  What a create-alert rule does when its configuration is well
    formed, the keys of the context are identifiers and the request
    succeeds: exactly one row is appended, for
    the rule's workspace, with the configured type, the configured
    priority or MEDIUM when none is configured, the rendered title and
    message, the context's [linkTo] or null, unread, created now; and
    when the socket server is set, one ['new-alert'] message goes to the
    room of the rule's workspace, otherwise none. *)
Theorem executeAutomation_alert_row
  (a : Automation.t) (context : Object) (w : World)
  (ty titleTemplate messageTemplate l : string) (p : AlertPriority)
  (link : option string) :
  forallb identifier (keys context) = true ->
  Automation.action a = CREATE_ALERT ->
  get (Automation.config a) "alertType" = JsString ty ->
  get (Automation.config a) "title" = JsString titleTemplate ->
  get (Automation.config a) "message" = JsString messageTemplate ->
  (truthy (get (Automation.config a) "priority") = false /\ p = MEDIUM)
  \/ (truthy (get (Automation.config a) "priority") = true
      /\ parsePriority (get (Automation.config a) "priority") = Some p) ->
  (truthy (get context "linkTo") = false /\ link = None)
  \/ (get context "linkTo" = JsString l /\ l <> EmptyString
      /\ link = Some l) ->
  faults w (ticks w) = false ->
  exists title message,
    replaceVariables (JsString titleTemplate) context = inr (JsString title)
    /\ replaceVariables (JsString messageTemplate) context
       = inr (JsString message)
    /\ alertTable (after (executeAutomation a context) w)
       = (alertTable w
          ++ [Alert.make (Automation.workspaceId a) ty p title message link
                         false (now w)])%list
    /\ socketEmits (newEffects w (after (executeAutomation a context) w))
       = (if ioInstance w
          then [(workspaceRoom (Automation.workspaceId a), "new-alert",
                 [("type", JsString ty); ("message", JsString message)])]
          else []).
Proof.
  intros _ Hact Hty Htitle Hmsg Hprio Hlink Hok.
  destruct (replaceVariables_string context titleTemplate) as (title & Ht).
  destruct (replaceVariables_string context messageTemplate) as (message & Hm).
  exists title, message. split; [exact Ht|]. split; [exact Hm|].
  unfold after. rewrite executeAutomation_alert by assumption.
  rewrite Htitle, Hmsg, Ht, Hm.
  assert (Hrow : alertRow (now w)
                   (alertData a context (JsString title) (JsString message))
                 = Some (Alert.make (Automation.workspaceId a) ty p title
                                    message link false (now w))).
  { unfold alertRow, alertData.
    cbn [data_type data_priority data_title data_message data_linkTo
         data_workspaceId].
    rewrite Hty.
    assert (Hp : parsePriority
                   (or_else (get (Automation.config a) "priority")
                            (JsString "MEDIUM")) = Some p).
    { unfold or_else. destruct Hprio as [[Hf ->]|[Hf Hp]]; rewrite Hf;
        [reflexivity | exact Hp]. }
    rewrite Hp. unfold or_else.
    destruct Hlink as [[Hf ->]|(Hl & Hne & ->)].
    - now rewrite Hf.
    - rewrite Hl. cbn [truthy]. apply String.eqb_neq in Hne.
      now rewrite Hne. }
  rewrite Hrow, Hok. unfold alertEmit, workspaceRoom. rewrite Hty.
  destruct (ioInstance w); cbn [snd]; rewrite newEffects_advance;
    split; reflexivity.
Qed.

Lemma executeAutomation_alert_row_witness :
  exists title message,
    replaceVariables (JsString "New contact") samContext = inr (JsString title)
    /\ replaceVariables (JsString "{{contactName}} joined") samContext
       = inr (JsString message)
    /\ alertTable (after (executeAutomation welcomeA samContext) (emptyWorld 0))
       = [Alert.make "A" "NEW_CONTACT" MEDIUM title message None false 0]
    /\ socketEmits
         (newEffects (emptyWorld 0)
            (after (executeAutomation welcomeA samContext) (emptyWorld 0)))
       = [("workspace-A", "new-alert",
           [("type", JsString "NEW_CONTACT"); ("message", JsString message)])].
Proof.
  exact (executeAutomation_alert_row welcomeA samContext (emptyWorld 0)
           "NEW_CONTACT" "New contact" "{{contactName}} joined" "" MEDIUM None
           eq_refl eq_refl eq_refl eq_refl eq_refl
           (or_introl (conj eq_refl eq_refl))
           (or_introl (conj eq_refl eq_refl)) eq_refl).
Defined.

Lemma truthy_get_nonempty (context : Object) (k : string) :
  truthy (get context k) = true -> context <> [].
Proof. intros H ->. discriminate H. Qed.

Lemma alertRow_title_string (t : Time) (d : AlertCreateInput) :
  (forall s, data_title d <> JsString s)
  \/ (forall s, data_message d <> JsString s) ->
  alertRow t d = None.
Proof.
  intros H. unfold alertRow.
  destruct (data_type d); try reflexivity.
  destruct (parsePriority (data_priority d)); try reflexivity.
  destruct (data_title d) as [| | | |ti]; try reflexivity.
  destruct (data_message d) as [| | | |m]; try reflexivity.
  destruct H as [H|H]; [now destruct (H ti) | now destruct (H m)].
Qed.

(** X9.  A rule whose template field is missing or not a string (the
    body of an e-mail rule, the message of an SMS rule, the title or the
    message of an alert rule) does nothing when it runs but log one
    error: no channel call, no request, no alert, and no exception for
    the caller. *)
Theorem executeAutomation_bad_template
  (a : Automation.t) (context : Object) (w : World) :
  (Automation.action a = SEND_EMAIL
   /\ truthy (get context "email") = true
   /\ forall t, get (Automation.config a) "body" <> JsString t)
  \/ (Automation.action a = SEND_SMS
      /\ truthy (get context "phone") = true
      /\ forall t, get (Automation.config a) "message" <> JsString t)
  \/ (Automation.action a = CREATE_ALERT
      /\ ((forall t, get (Automation.config a) "title" <> JsString t)
          \/ (forall t, get (Automation.config a) "message" <> JsString t))) ->
  executeAutomation a context w
  = (inr tt, advance [] 0 [CallExecute a context; executeError] w).
Proof.
  intros [(Hact & Hk & Hbad)|[(Hact & Hk & Hbad)|(Hact & Hbad)]].
  - rewrite executeAutomation_email by assumption. rewrite Hk.
    rewrite (replaceVariables_not_string context _ Hbad).
    pose proof (truthy_get_nonempty _ _ Hk). now destruct context.
  - rewrite executeAutomation_sms by assumption. rewrite Hk.
    rewrite (replaceVariables_not_string context _ Hbad).
    pose proof (truthy_get_nonempty _ _ Hk). now destruct context.
  - rewrite executeAutomation_alert by assumption.
    destruct (replaceVariables (get (Automation.config a) "title") context)
      as [e|title] eqn:Ht; [reflexivity|].
    destruct (replaceVariables (get (Automation.config a) "message") context)
      as [e|message] eqn:Hm; [reflexivity|].
    rewrite alertRow_title_string; [reflexivity|].
    unfold alertData. cbn [data_title data_message].
    destruct Hbad as [Hbad|Hbad]; [left|right]; intros s Heq; subst.
    + rewrite (replaceVariables_not_string context _ Hbad) in Ht.
      destruct context; [|discriminate]. inversion Ht as [Hv].
      exact (Hbad s Hv).
    + rewrite (replaceVariables_not_string context _ Hbad) in Hm.
      destruct context; [|discriminate]. inversion Hm as [Hv].
      exact (Hbad s Hv).
Qed.

Lemma executeAutomation_bad_template_witness :
  executeAutomation noBodyRule samContext (emptyWorld 0)
  = (inr tt,
     advance [] 0 [CallExecute noBodyRule samContext; executeError]
             (emptyWorld 0)).
Proof.
  apply executeAutomation_bad_template. left.
  split; [reflexivity|]. split; [reflexivity|]. discriminate.
Defined.

(* ------------------------------------------------------------------ *)
(** ** More on the scanners                                            *)
(* ------------------------------------------------------------------ *)

Lemma remindPendingForm_returns (s : FormSubmission.t) (w : World) :
  outcome (remindPendingForm s) w = inr tt.
Proof.
  unfold remindPendingForm. destruct (FormSubmission.booking s);
    [apply triggerAutomation_returns | reflexivity].
Qed.

Lemma remindPendingForm_steady (s : FormSubmission.t) (w : World) :
  steady w (after (remindPendingForm s) w).
Proof.
  unfold remindPendingForm. destruct (FormSubmission.booking s);
    [apply triggerAutomation_steady | apply steady_refl].
Qed.

Lemma remindPendingForm_dispatches (s : FormSubmission.t) (w : World) :
  flat_map (fun e => match e with
                     | CallTrigger ws t c => [(ws, t, c)]
                     | _ => []
                     end)
    (newEffects w (after (remindPendingForm s) w))
  = pendingDispatch s.
Proof.
  unfold remindPendingForm, pendingDispatch.
  destruct (FormSubmission.booking s).
  - apply dispatches_of_trigger.
  - unfold after. cbn [ret snd]. now rewrite newEffects_refl.
Qed.

Lemma checkPendingForms_advance (w : World) :
  checkPendingForms w
  = if faults w (ticks w)
    then (inr tt,
          advance [] 1 [ConsoleError "Error checking pending forms:"] w)
    else (inr tt,
          fold_left (fun w' s => after (remindPendingForm s) w')
                    (pendingForms w) (advance [] 1 [] w)).
Proof.
  unfold checkPendingForms, prisma_formSubmission_findMany. run.
  destruct (faults w (ticks w)); run; [reflexivity|].
  change (fun submission : FormSubmission.t =>
            match FormSubmission.booking submission with
            | Some booking =>
                triggerAutomation (Booking.workspaceId booking) FORM_PENDING
                  (formContext submission)
            | None => fun w0 : World => (inr tt, w0)
            end) with remindPendingForm.
  rewrite forOf_fold by (intros; apply remindPendingForm_returns).
  reflexivity.
Qed.

Lemma pendingFormWhere_true (oneDayAgo : Time) (s : FormSubmission.t) :
  pendingFormWhere oneDayAgo s = true
  <-> FormSubmission.status s = PENDING
      /\ FormSubmission.createdAt s <= oneDayAgo.
Proof.
  unfold pendingFormWhere. rewrite andb_true_iff, Z.leb_le.
  assert (Hs : formStatus_eqb (FormSubmission.status s) PENDING = true
               <-> FormSubmission.status s = PENDING)
    by (destruct (FormSubmission.status s); cbn; intuition congruence).
  now rewrite Hs.
Qed.

(** X10.  The pending-form scan dispatches FORM_PENDING once for every
    submission that is PENDING, was created at or before
    [addDays(now, -1)] and has a booking, to the workspace of that
    booking, in table order; a submission without booking gets nothing;
    when the query fails nothing is dispatched.  On a host whose zone
    keeps one offset [addDays(now, -1)] is 24 hours before the scan. *)
Theorem checkPendingForms_dispatches (w : World) :
  dispatches (newEffects w (after checkPendingForms w))
  = (if faults w (ticks w) then []
     else flat_map pendingDispatch (pendingForms w))
  /\ (forall s,
        In s (pendingForms w)
        <-> In s (formSubmissionTable w)
            /\ FormSubmission.status s = PENDING
            /\ FormSubmission.createdAt s <= addDays w (now w) (-1))
  /\ (forall entry,
        In entry (dispatches (newEffects w (after checkPendingForms w))) ->
        exists s booking,
          In s (formSubmissionTable w)
          /\ FormSubmission.status s = PENDING
          /\ FormSubmission.createdAt s <= addDays w (now w) (-1)
          /\ FormSubmission.booking s = Some booking
          /\ entry = (Booking.workspaceId booking, FORM_PENDING,
                      formContext s))
  /\ (fixedOffset w ->
      forall s,
        In s (pendingForms w)
        <-> In s (formSubmissionTable w)
            /\ FormSubmission.status s = PENDING
            /\ FormSubmission.createdAt s <= now w - msPerDay).
Proof.
  assert (Hd : dispatches (newEffects w (after checkPendingForms w))
               = (if faults w (ticks w) then []
                  else flat_map pendingDispatch (pendingForms w))).
  { unfold after. rewrite checkPendingForms_advance.
    destruct (faults w (ticks w)); cbn [snd].
    - now rewrite newEffects_advance.
    - rewrite (newEffects_trans w (advance [] 1 [] w))
        by (try apply steady_advance; apply fold_steady; intros;
            apply remindPendingForm_steady).
      rewrite newEffects_advance. cbn [app]. unfold dispatches.
      apply (fold_selects _ remindPendingForm_steady).
      intros; apply remindPendingForm_dispatches. }
  assert (Hp : forall s,
             In s (pendingForms w)
             <-> In s (formSubmissionTable w)
                 /\ FormSubmission.status s = PENDING
                 /\ FormSubmission.createdAt s <= addDays w (now w) (-1)).
  { intros s. unfold pendingForms.
    rewrite filter_In, pendingFormWhere_true. tauto. }
  split; [exact Hd|]. split; [exact Hp|]. split.
  - intros entry Hin. rewrite Hd in Hin.
    destruct (faults w (ticks w)); [destruct Hin|].
    apply in_flat_map in Hin as (s & Hs & He).
    apply Hp in Hs as (Hin & Hst & Hat).
    unfold pendingDispatch in He.
    destruct (FormSubmission.booking s) as [b|] eqn:Hb; [|destruct He].
    destruct He as [<-|[]]. exists s, b. auto.
  - intros Hzone s. rewrite Hp, (addDays_fixedOffset w) by exact Hzone.
    intuition lia.
Qed.

(** On a host on UTC, of three pending submissions the one created two
    days ago with a booking is dispatched for; the one without booking
    and the one created an hour ago are not. *)
Lemma checkPendingForms_dispatches_witness :
  fixedOffset pendingWorld
  /\ dispatches (newEffects pendingWorld (after checkPendingForms pendingWorld))
     = [("A", FORM_PENDING, formContext oldWithBooking)]
  /\ (In freshWithBooking (pendingForms pendingWorld)
      <-> In freshWithBooking (formSubmissionTable pendingWorld)
          /\ FormSubmission.status freshWithBooking = PENDING
          /\ FormSubmission.createdAt freshWithBooking
             <= now pendingWorld - msPerDay).
Proof.
  assert (Hzone : fixedOffset pendingWorld)
    by (exists 0; split; reflexivity).
  destruct (checkPendingForms_dispatches pendingWorld) as (H1 & _ & _ & H4).
  split; [exact Hzone|]. split; [exact H1|].
  exact (H4 Hzone freshWithBooking).
Defined.

(** X11.  The 15-minute job never writes rules, bookings, inventory
    items or form submissions and only appends to the alert table; the
    hourly job never writes rules, bookings, inventory items or alerts
    and neither adds nor removes a submission. *)
Theorem scheduled_jobs_tables (w : World) :
  (automationTable (after every15Minutes w) = automationTable w
   /\ bookingTable (after every15Minutes w) = bookingTable w
   /\ inventoryItemTable (after every15Minutes w) = inventoryItemTable w
   /\ formSubmissionTable (after every15Minutes w) = formSubmissionTable w
   /\ exists rows,
        alertTable (after every15Minutes w) = (alertTable w ++ rows)%list)
  /\ (automationTable (after everyHour w) = automationTable w
      /\ bookingTable (after everyHour w) = bookingTable w
      /\ inventoryItemTable (after everyHour w) = inventoryItemTable w
      /\ alertTable (after everyHour w) = alertTable w
      /\ map FormSubmission.id (formSubmissionTable (after everyHour w))
         = map FormSubmission.id (formSubmissionTable w)).
Proof.
  split.
  - destruct (steady_fields w _ (steadyM_every15Minutes w))
      as (H1 & H2 & H3 & H4 & _ & _ & _ & _ & H5).
    auto.
  - unfold everyHour.
    destruct (checkOverdueForms_summary w)
      as (done & rest & n & d & _ & Hrun & _ & _).
    unfold after. rewrite Hrun.
    cbn [snd automationTable bookingTable inventoryItemTable alertTable
         formSubmissionTable set_formSubmissionTable advance].
    repeat split; [apply app_nil_r|].
    rewrite map_map. apply map_ext. intros s. unfold markOverdue.
    now destruct (existsb _ _).
Qed.

(** X14.  The reminder scan keeps no record of what it sent: a second
    run at the same time dispatches for the same bookings again. *)
Theorem checkBookingReminders_repeats (w : World) :
  faults w (ticks w) = false ->
  faults w (ticks (after checkBookingReminders w)) = false ->
  dispatches
    (newEffects (after checkBookingReminders w)
       (after checkBookingReminders (after checkBookingReminders w)))
  = dispatches (newEffects w (after checkBookingReminders w))
  /\ dispatches (newEffects w (after checkBookingReminders w))
     = map (reminderDispatch w) (reminderBookings w).
Proof.
  intros H0 H1.
  destruct (steadyM_checkBookingReminders w) as (rows & n & d & Hw1).
  rewrite !checkBookingReminders_dispatches, H0.
  rewrite Hw1 in H1 |- *. cbn [faults advance] in H1 |- *.
  rewrite H1. split; reflexivity.
Qed.

Lemma checkBookingReminders_repeats_witness :
  dispatches
    (newEffects (after checkBookingReminders eveningWorld)
       (after checkBookingReminders (after checkBookingReminders eveningWorld)))
  = [reminderDispatch eveningWorld lateBooking].
Proof.
  destruct (checkBookingReminders_repeats eveningWorld eq_refl eq_refl)
    as [H1 H2].
  rewrite H1. exact H2.
Defined.

Lemma forOf_app {A : Type} (l1 l2 : list A) (body : A -> M unit) (w : World) :
  forOf (l1 ++ l2) body w
  = match forOf l1 body w with
    | (inl e, w') => (inl e, w')
    | (inr _, w') => forOf l2 body w'
    end.
Proof.
  revert w. induction l1 as [|x l1 IH]; intros w; [reflexivity|].
  cbn [app forOf]. unfold bind.
  destruct (body x w) as [[e|[]] w1]; [reflexivity | apply IH].
Qed.

(** X15.  A failing guard query stops the low-inventory scan.  The items
    before it are handled as in a scan that ends with them; the item
    whose query failed and every item after it get nothing in this run
    -- no dispatch, no alert; one error line is logged and the scan
    returns normally. *)
Theorem checkInventoryLevels_guard_failure
  (w : World) (pre rest : list InventoryItem.t) (item : InventoryItem.t) :
  filter lowStockWhere (inventoryItemTable w) = (pre ++ item :: rest)%list ->
  faults w (ticks w) = false ->
  outcome (forOf pre checkInventoryItem) (advance [] 1 [] w) = inr tt ->
  faults w (ticks (afterItems pre w)) = true ->
  checkInventoryLevels w
  = (inr tt,
     advance [] 1 [ConsoleError "Error checking inventory levels:"]
             (afterItems pre w))
  /\ alertTable (after checkInventoryLevels w) = alertTable (afterItems pre w)
  /\ dispatches (newEffects w (after checkInventoryLevels w))
     = dispatches (newEffects w (afterItems pre w))
  /\ (forall entry,
        In entry (dispatches (newEffects w (after checkInventoryLevels w))) ->
        exists i, In i pre /\ entry = inventoryDispatch i).
Proof.
  intros Hitems Hok Hpre Hfail.
  assert (Hsteady : steady (advance [] 1 [] w) (afterItems pre w))
    by (apply steadyM_forOf; intros; apply steadyM_checkInventoryItem).
  assert (Hsteady' : steady w (afterItems pre w))
    by (eapply steady_trans; [apply steady_advance | exact Hsteady]).
  assert (Hfaults : faults (afterItems pre w) = faults w).
  { destruct Hsteady' as (r & n & d & ->). reflexivity. }
  assert (Hrun : checkInventoryLevels w
                 = (inr tt,
                    advance [] 1
                      [ConsoleError "Error checking inventory levels:"]
                      (afterItems pre w))).
  { rewrite checkInventoryLevels_advance, Hok, Hitems.
    unfold tryCatch. rewrite forOf_app.
    unfold outcome in Hpre. unfold afterItems, after in *.
    destruct (forOf pre checkInventoryItem (advance [] 1 [] w))
      as [[e|[]] wp]; cbn [fst snd] in *; [discriminate|].
    cbn [forOf]. unfold bind. rewrite checkInventoryItem_advance.
    rewrite Hfaults, Hfail.
    unfold consoleError. rewrite record_advance, advance_advance.
    reflexivity. }
  assert (Hd : dispatches (newEffects w (after checkInventoryLevels w))
               = dispatches (newEffects w (afterItems pre w))).
  { unfold after at 1. rewrite Hrun. cbn [snd].
    rewrite (newEffects_trans w (afterItems pre w))
      by (first [exact Hsteady' | apply steady_advance]).
    rewrite newEffects_advance, dispatches_app. cbn. apply app_nil_r. }
  split; [exact Hrun|]. split; [|split; [exact Hd|]].
  - unfold after at 1. rewrite Hrun. cbn [snd alertTable advance].
    apply app_nil_r.
  - intros entry Hin. rewrite Hd in Hin.
    rewrite (newEffects_trans w (advance [] 1 [] w))
      in Hin by (first [apply steady_advance | exact Hsteady]).
    rewrite newEffects_advance in Hin. cbn [app] in Hin.
    apply (inventory_loop_dispatches pre w) in Hin
      as (i & Hi & He & _); [|apply steady_advance].
    now exists i.
Qed.

(** Gloves and masks are low and have no alert; the guard query of the
    masks fails.  The gloves get their alert, the masks get nothing. *)
Lemma checkInventoryLevels_guard_failure_witness :
  alertTable (after checkInventoryLevels secondGuardFailsWorld)
  = [glovesAlert day10]
  /\ dispatches (newEffects secondGuardFailsWorld
                   (after checkInventoryLevels secondGuardFailsWorld))
     = [inventoryDispatch gloves]
  /\ consoleErrors (newEffects secondGuardFailsWorld
                      (after checkInventoryLevels secondGuardFailsWorld))
     = ["Error checking inventory levels:"].
Proof.
  destruct (checkInventoryLevels_guard_failure secondGuardFailsWorld
              [gloves] [] masks eq_refl eq_refl eq_refl eq_refl)
    as (Hrun & Halerts & Hd & _).
  split; [exact Halerts|]. split; [exact Hd|].
  unfold after. rewrite Hrun. reflexivity.
Defined.

(* ------------------------------------------------------------------ *)
(** ** Workspaces                                                      *)
(* ------------------------------------------------------------------ *)

Lemma alertRow_fields (t : Time) (d : AlertCreateInput) (row : Alert.t) :
  alertRow t d = Some row ->
  Alert.workspaceId row = data_workspaceId d
  /\ Alert.createdAt row = t
  /\ Alert.isRead row = false
  /\ data_type d = JsString (Alert.type row)
  /\ data_message d = JsString (Alert.message row).
Proof.
  unfold alertRow.
  destruct (data_type d); try discriminate.
  destruct (parsePriority (data_priority d)); try discriminate.
  destruct (data_title d); try discriminate.
  destruct (data_message d); try discriminate.
  destruct (data_linkTo d); try discriminate;
    intros H; inversion H; subst; cbn; auto.
Qed.

Lemma scoped_refl (ws : string) (w : World) : scoped ws w w.
Proof.
  exists [], 0%nat, []. split; [symmetry; apply advance_zero|].
  split; constructor.
Qed.

Lemma scoped_trans (ws : string) (w1 w2 w3 : World) :
  scoped ws w1 w2 -> scoped ws w2 w3 -> scoped ws w1 w3.
Proof.
  intros (r1 & n1 & d1 & -> & Hr1 & Hd1) (r2 & n2 & d2 & -> & Hr2 & Hd2).
  exists (r1 ++ r2)%list, (n1 + n2)%nat, (d1 ++ d2)%list.
  split; [apply advance_advance|].
  split; apply Forall_app; auto.
Qed.

Lemma scoped_advance (ws : string) rows n d (w : World) :
  Forall (fun r => Alert.workspaceId r = ws) rows ->
  Forall (emitScoped ws) d ->
  scoped ws w (advance rows n d w).
Proof. intros Hr Hd. now exists rows, n, d. Qed.

(** A rule adds alerts of its own workspace only and sends socket
    messages to its own workspace's room only. *)
Lemma executeAutomation_scoped (a : Automation.t) (context : Object)
  (w : World) :
  scoped (Automation.workspaceId a) w (after (executeAutomation a context) w).
Proof.
  unfold after. destruct (Automation.action a) eqn:Hact.
  - rewrite executeAutomation_email by assumption.
    destruct (truthy _); [|apply scoped_advance; repeat constructor].
    destruct (replaceVariables _ _);
      [apply scoped_advance; repeat constructor|].
    cbv zeta. destruct (faults _ _);
      apply scoped_advance; repeat constructor.
  - rewrite executeAutomation_sms by assumption.
    destruct (truthy _); [|apply scoped_advance; repeat constructor].
    destruct (replaceVariables _ _);
      [apply scoped_advance; repeat constructor|].
    cbv zeta. destruct (_ =? _)%string;
      [|apply scoped_advance; repeat constructor].
    destruct (faults _ _); apply scoped_advance; repeat constructor.
  - rewrite executeAutomation_alert by assumption.
    destruct (replaceVariables _ _) as [e|title];
      [apply scoped_advance; repeat constructor|].
    destruct (replaceVariables _ _) as [e|message];
      [apply scoped_advance; repeat constructor|].
    destruct (alertRow _ _) as [row|] eqn:Hrow;
      [|apply scoped_advance; repeat constructor].
    apply alertRow_fields in Hrow as (Hws & _).
    destruct (faults _ _); [apply scoped_advance; repeat constructor|].
    destruct (ioInstance w); apply scoped_advance; repeat constructor;
      exact Hws.
Qed.

Lemma fold_scoped (ws : string) (context : Object) (l : list Automation.t) :
  (forall a, In a l -> Automation.workspaceId a = ws) ->
  forall w,
    scoped ws w
      (fold_left (fun w' a => after (executeAutomation a context) w') l w).
Proof.
  induction l as [|a l IH]; intros Hall w; [apply scoped_refl|].
  cbn [fold_left]. eapply scoped_trans.
  - rewrite <- (Hall a (or_introl eq_refl)). apply executeAutomation_scoped.
  - apply IH. intros a' Ha'. apply Hall. now right.
Qed.

Lemma triggerAutomation_scoped ws trig (context : Object) (w : World) :
  scoped ws w (after (triggerAutomation ws trig context) w).
Proof.
  unfold after. rewrite triggerAutomation_advance.
  destruct (faults w (ticks w)); cbn [snd];
    [apply scoped_advance; repeat constructor|].
  apply (scoped_trans ws w (advance [] 1 [CallTrigger ws trig context] w));
    [apply scoped_advance; repeat constructor|].
  apply fold_scoped. intros a Ha. unfold matching in Ha.
  apply filter_In in Ha as [_ Ha].
  now apply automationWhere_true in Ha as (Hws & _).
Qed.

Lemma socketEmits_scoped (ws : string) (d : list Effect) :
  Forall (emitScoped ws) d ->
  forall room event payload,
    In (room, event, payload) (socketEmits d) ->
    room = workspaceRoom ws /\ event = "new-alert".
Proof.
  intros Hd room event payload Hin. unfold socketEmits in Hin.
  apply in_flat_map in Hin as (e & He & Hin).
  rewrite Forall_forall in Hd. specialize (Hd e He).
  destruct e; cbn [In] in Hin; try contradiction.
  destruct Hin as [Heq|[]]. inversion Heq; subst. exact Hd.
Qed.

(** X12.  A dispatch never crosses workspaces: the alerts a call of
    [triggerAutomation] adds all belong to the given workspace, the
    table is otherwise as before, and every socket message it sends is a
    ['new-alert'] to the room of that workspace. *)
Theorem triggerAutomation_workspace_scoped
  ws trig (context : Object) (w : World) :
  exists rows,
    alertTable (after (triggerAutomation ws trig context) w)
    = (alertTable w ++ rows)%list
    /\ Forall (fun r => Alert.workspaceId r = ws) rows
    /\ (forall room event payload,
          In (room, event, payload)
             (socketEmits
                (newEffects w (after (triggerAutomation ws trig context) w))) ->
          room = workspaceRoom ws /\ event = "new-alert").
Proof.
  destruct (triggerAutomation_scoped ws trig context w)
    as (rows & n & d & Hw & Hrows & Hd).
  exists rows. rewrite Hw. split; [reflexivity|]. split; [exact Hrows|].
  rewrite newEffects_advance. now apply socketEmits_scoped.
Qed.

Lemma workspaceRoom_inj (a b : string) :
  workspaceRoom a = workspaceRoom b -> a = b.
Proof. unfold workspaceRoom. cbn. intros H. now inversion H. Qed.

Lemma rooms_joined (s : Socket) (wss : list string) :
  rooms (fold_left joinWorkspace wss s)
  = (rev (map workspaceRoom wss) ++ rooms s)%list.
Proof.
  revert s. induction wss as [|x wss IH]; intros s; [reflexivity|].
  cbn [fold_left map rev]. rewrite IH. cbn [rooms joinWorkspace].
  now rewrite <- app_assoc.
Qed.

Lemma in_room (id : string) (wss : list string) (ws : string) :
  id <> workspaceRoom ws ->
  existsb (String.eqb (workspaceRoom ws)) (rooms (joined id wss))
  = existsb (String.eqb ws) wss.
Proof.
  intros Hid. unfold joined. rewrite rooms_joined. cbn [rooms connect].
  rewrite existsb_app. cbn [existsb].
  assert (Hself : (workspaceRoom ws =? id)%string = false)
    by (apply String.eqb_neq; congruence).
  rewrite Hself. cbn [orb]. rewrite orb_false_r.
  destruct (existsb (String.eqb ws) wss) eqn:Hex.
  - apply existsb_exists in Hex as (x & Hx & Heq).
    apply String.eqb_eq in Heq. subst x.
    apply existsb_exists. exists (workspaceRoom ws).
    split; [|apply String.eqb_refl].
    rewrite <- in_rev. now apply in_map.
  - apply not_true_iff_false. intros H.
    apply existsb_exists in H as (r & Hr & Heq).
    apply String.eqb_eq in Heq. subst r.
    rewrite <- in_rev in Hr.
    apply in_map_iff in Hr as (x & Hx & Hin).
    apply workspaceRoom_inj in Hx. subst x.
    apply not_true_iff_false in Hex. apply Hex.
    apply existsb_exists. exists ws. split; [exact Hin|].
    apply String.eqb_refl.
Qed.

(** X13.  The real-time messages of a dispatch reach exactly the clients
    that joined the workspace: a client that sent ['join-workspace'] for
    the workspace receives each of them, a client that did not (and
    whose own id is not the room's name) receives nothing the dispatch
    does. *)
Theorem triggerAutomation_fan_out
  ws trig (context : Object) (w : World) (id : string) (wss : list string) :
  id <> workspaceRoom ws ->
  forall e,
    In e (newEffects w (after (triggerAutomation ws trig context) w)) ->
    receives (joined id wss) e
    = match e with
      | SocketEmit _ _ _ => existsb (String.eqb ws) wss
      | _ => false
      end.
Proof.
  intros Hid e He.
  destruct (triggerAutomation_scoped ws trig context w)
    as (rows & n & d & Hw & _ & Hd).
  rewrite Hw, newEffects_advance in He.
  rewrite Forall_forall in Hd. specialize (Hd e He).
  destruct e; try reflexivity. cbn [emitScoped] in Hd.
  destruct Hd as [-> _]. cbn [receives]. now apply in_room.
Qed.

Lemma triggerAutomation_fan_out_witness :
  Forall
    (fun e =>
       receives (joined "s1" ["B"]) e = false
       /\ receives (joined "s2" ["B"; "A"]) e
          = match e with SocketEmit _ _ _ => true | _ => false end)
    (newEffects twoWorkspaces
       (after (triggerAutomation "A" CONTACT_CREATED samContext)
              twoWorkspaces)).
Proof.
  apply Forall_forall. intros e He. split.
  - rewrite (triggerAutomation_fan_out "A" CONTACT_CREATED samContext
               twoWorkspaces "s1" ["B"]) by (discriminate || exact He).
    now destruct e.
  - now rewrite (triggerAutomation_fan_out "A" CONTACT_CREATED samContext
                   twoWorkspaces "s2" ["B"; "A"])
      by (discriminate || exact He).
Defined.

(* ------------------------------------------------------------------ *)
(** ** Two low-inventory scans in a row                                *)
(* ------------------------------------------------------------------ *)

Lemma find_app_none_l {A : Type} (p : A -> bool) (l1 l2 : list A) :
  find p l1 = None -> find p (l1 ++ l2) = find p l2.
Proof.
  induction l1 as [|x l1 IH]; [reflexivity|]. cbn [app find].
  destruct (p x); [discriminate | exact IH].
Qed.

(** X2.  Whether the low-inventory scan repeats itself depends on the
    alert its rule writes.  After a scan that added the alert [row] for
    the only low-stock item, a second scan at the same time adds nothing
    if [row] has type "LOW_INVENTORY" and its message contains the
    item's name, and adds the same alert once more otherwise (the guard
    does not look at the title).  The alert just written counts as recent
    because [addDays(now, -1)] is not after now, as on every host whose
    zone does not move its clocks by more than a day. *)
Theorem checkInventoryLevels_second_scan
  (w : World) (item : InventoryItem.t) (rule : Automation.t)
  (title message : JsValue) (row : Alert.t) :
  faultFree w ->
  filter lowStockWhere (inventoryItemTable w) = [item] ->
  recentAlert w item = None ->
  filter (automationWhere (InventoryItem.workspaceId item) INVENTORY_LOW)
         (automationTable w) = [rule] ->
  Automation.action rule = CREATE_ALERT ->
  replaceVariables (get (Automation.config rule) "title")
                   (inventoryContext item) = inr title ->
  replaceVariables (get (Automation.config rule) "message")
                   (inventoryContext item) = inr message ->
  alertRow (now w) (alertData rule (inventoryContext item) title message)
  = Some row ->
  alertTable (after checkInventoryLevels w) = (alertTable w ++ [row])%list
  /\ alertTable (after checkInventoryLevels (after checkInventoryLevels w))
     = (alertTable w
        ++ if (Alert.type row =? "LOW_INVENTORY")%string
              && includes (InventoryItem.name item) (Alert.message row)
              && (addDays w (now w) (-1) <=? now w)
           then [row] else [row; row])%list
  /\ (fixedOffset w -> (addDays w (now w) (-1) <=? now w) = true).
Proof.
  intros Hff Hitems Hnone Hrules Hact Htitle Hmsg Hrow.
  pose proof (checkInventoryLevels_one_alert w item rule title message row
                Hff Hitems Hnone Hrules Hact Htitle Hmsg Hrow) as H1.
  split; [exact H1|].
  split;
    [|intros Hzone; rewrite (addDays_fixedOffset w) by exact Hzone;
      apply Z.leb_le; unfold msPerDay; lia].
  destruct (steadyM_checkInventoryLevels w) as (rows & n & d & Hw1).
  rewrite Hw1 in H1 |- *. cbn [alertTable advance] in H1.
  apply app_inv_head in H1. subst rows.
  set (w1 := advance [row] n d w).
  assert (Hguard : recentAlertWhere (InventoryItem.workspaceId item)
                     (addDays w (now w) (-1)) (InventoryItem.name item) row
                   = (Alert.type row =? "LOW_INVENTORY")%string
                     && includes (InventoryItem.name item) (Alert.message row)
                     && (addDays w (now w) (-1) <=? now w)).
  { apply alertRow_fields in Hrow as (Hws & Hat & _).
    assert (Hin : In rule [rule]) by now left.
    rewrite <- Hrules in Hin. apply filter_In in Hin as [_ Hin].
    apply automationWhere_true in Hin as (Hrws & _).
    unfold recentAlertWhere. rewrite Hws, Hat.
    cbn [alertData data_workspaceId]. rewrite Hrws, String.eqb_refl.
    cbn [andb].
    destruct (Alert.type row =? "LOW_INVENTORY")%string,
             (includes (InventoryItem.name item) (Alert.message row)),
             (addDays w (now w) (-1) <=? now w); reflexivity. }
  assert (Hrecent : recentAlert w1 item
                    = if (Alert.type row =? "LOW_INVENTORY")%string
                         && includes (InventoryItem.name item)
                                     (Alert.message row)
                         && (addDays w (now w) (-1) <=? now w)
                      then Some row else None).
  { unfold recentAlert in *. subst w1. rewrite addDays_advance.
    cbn [now alertTable advance].
    rewrite find_app_none_l by assumption. cbn [find]. now rewrite Hguard. }
  destruct ((Alert.type row =? "LOW_INVENTORY")%string
            && includes (InventoryItem.name item) (Alert.message row)
            && (addDays w (now w) (-1) <=? now w)).
  - destruct (checkInventoryLevels_quiet w1) as [Hq _]; [|exact Hq].
    intros item' Hin Hlow.
    assert (Hi : In item' (filter lowStockWhere (inventoryItemTable w)))
      by (apply filter_In; now split).
    rewrite Hitems in Hi. destruct Hi as [<-|[]].
    rewrite Hrecent. discriminate.
  - rewrite (checkInventoryLevels_one_alert w1 item rule title message row);
      auto.
    subst w1. cbn [alertTable advance]. now rewrite <- app_assoc.
Qed.

(** The rule of the end-to-end scenario names the item in the title
    only: two scans, two alerts. *)
Lemma checkInventoryLevels_second_scan_witness :
  alertTable (after checkInventoryLevels thresholdWorld) = [thresholdAlert]
  /\ alertTable
       (after checkInventoryLevels (after checkInventoryLevels thresholdWorld))
     = [thresholdAlert; thresholdAlert].
Proof.
  assert (Hff : faultFree thresholdWorld) by (intros n; reflexivity).
  destruct (checkInventoryLevels_second_scan thresholdWorld gloves
              thresholdRule (JsString "Gloves low")
              (JsString "Only 3 left (threshold 10)") thresholdAlert
              Hff eq_refl eq_refl eq_refl eq_refl eq_refl eq_refl eq_refl)
    as (H1 & H2 & _).
  split; [exact H1 | exact H2].
Defined.

(* ------------------------------------------------------------------ *)
(** ** Alerts and their announcements                                  *)
(* ------------------------------------------------------------------ *)

Lemma socketEmits_app (d1 d2 : list Effect) :
  socketEmits (d1 ++ d2) = (socketEmits d1 ++ socketEmits d2)%list.
Proof. apply flat_map_app. Qed.

Lemma announced_refl (b : bool) (w : World) : announced b w w.
Proof.
  exists [], 0%nat, []. split; [symmetry; apply advance_zero|].
  now destruct b.
Qed.

Lemma announced_trans (b : bool) (w1 w2 w3 : World) :
  announced b w1 w2 -> announced b w2 w3 -> announced b w1 w3.
Proof.
  intros (r1 & n1 & d1 & -> & H1) (r2 & n2 & d2 & -> & H2).
  exists (r1 ++ r2)%list, (n1 + n2)%nat, (d1 ++ d2)%list.
  split; [apply advance_advance|].
  rewrite socketEmits_app, H1, H2. destruct b; [|reflexivity].
  now rewrite map_app.
Qed.

Lemma announced_quiet (b : bool) n d (w : World) :
  socketEmits d = [] -> announced b w (advance [] n d w).
Proof.
  intros Hd. exists [], n, d. split; [reflexivity|].
  rewrite Hd. now destruct b.
Qed.

Lemma executeAutomation_announced (a : Automation.t) (context : Object)
  (w : World) :
  announced (ioInstance w) w (after (executeAutomation a context) w).
Proof.
  unfold after. destruct (Automation.action a) eqn:Hact.
  - rewrite executeAutomation_email by assumption.
    destruct (truthy _); [|now apply announced_quiet].
    destruct (replaceVariables _ _); [now apply announced_quiet|].
    cbv zeta. destruct (faults _ _); now apply announced_quiet.
  - rewrite executeAutomation_sms by assumption.
    destruct (truthy _); [|now apply announced_quiet].
    destruct (replaceVariables _ _); [now apply announced_quiet|].
    cbv zeta. destruct (_ =? _)%string; [|now apply announced_quiet].
    destruct (faults _ _); now apply announced_quiet.
  - rewrite executeAutomation_alert by assumption.
    destruct (replaceVariables _ _) as [e|title];
      [now apply announced_quiet|].
    destruct (replaceVariables _ _) as [e|message];
      [now apply announced_quiet|].
    destruct (alertRow _ _) as [row|] eqn:Hrow;
      [|now apply announced_quiet].
    apply alertRow_fields in Hrow as (Hws & _ & _ & Hty & Hmsg).
    cbn [alertData data_workspaceId data_type data_message] in Hws, Hty, Hmsg.
    destruct (faults _ _); [now apply announced_quiet|].
    destruct (ioInstance w); cbn [snd].
    + exists [row], 1%nat, [CallExecute a context; alertEmit a message].
      split; [reflexivity|]. unfold alertEmit, announcement, workspaceRoom.
      cbn [socketEmits flat_map app map]. now rewrite Hws, Hty, Hmsg.
    + now exists [row], 1%nat, [CallExecute a context].
Qed.

Lemma fold_announced (b : bool) (context : Object) (l : list Automation.t) :
  forall w,
    ioInstance w = b ->
    announced b w
      (fold_left (fun w' a => after (executeAutomation a context) w') l w).
Proof.
  induction l as [|a l IH]; intros w Hb; [apply announced_refl|].
  cbn [fold_left]. eapply announced_trans.
  - rewrite <- Hb. apply executeAutomation_announced.
  - apply IH.
    destruct (executeAutomation_steady a context w) as (r & n & d & ->).
    exact Hb.
Qed.

(** X16.  Every alert a dispatch adds is announced, and nothing else
    is: when the socket server is set, the socket messages of a call of
    [triggerAutomation] are, in order, one ['new-alert'] per added row,
    to the room of the row's workspace, carrying the row's type and
    message; before [startAutomationEngine] has set the server, alerts
    are added without any message. *)
Theorem triggerAutomation_announces ws trig (context : Object) (w : World) :
  exists rows,
    alertTable (after (triggerAutomation ws trig context) w)
    = (alertTable w ++ rows)%list
    /\ socketEmits
         (newEffects w (after (triggerAutomation ws trig context) w))
       = (if ioInstance w then map announcement rows else []).
Proof.
  assert (H : announced (ioInstance w) w
                (after (triggerAutomation ws trig context) w)).
  { unfold after. rewrite triggerAutomation_advance.
    destruct (faults w (ticks w)); cbn [snd];
      [now apply announced_quiet|].
    apply (announced_trans _ w (advance [] 1 [CallTrigger ws trig context] w));
      [now apply announced_quiet|].
    now apply fold_announced. }
  destruct H as (rows & n & d & Hw & Hd).
  exists rows. rewrite Hw, newEffects_advance. now split.
Qed.

(* ------------------------------------------------------------------ *)
(** ** From a scan to the e-mail channel                               *)
(* ------------------------------------------------------------------ *)

Ltac settle := cbn [snd]; rewrite newEffects_advance; reflexivity.

Lemma emailCalls_of_execute (a : Automation.t) (context : Object) (w : World) :
  emailCalls (newEffects w (after (executeAutomation a context) w))
  = emailPayloads a context.
Proof.
  unfold after, emailPayloads. destruct (Automation.action a) eqn:Hact.
  - rewrite executeAutomation_email by assumption.
    destruct (truthy _); [|settle].
    destruct (replaceVariables _ _); [settle|].
    cbv zeta. destruct (faults _ _); settle.
  - rewrite executeAutomation_sms by assumption.
    destruct (truthy _); [|settle].
    destruct (replaceVariables _ _); [settle|].
    cbv zeta. destruct (_ =? _)%string; [|settle].
    destruct (faults _ _); settle.
  - rewrite executeAutomation_alert by assumption.
    destruct (replaceVariables _ _); [settle|].
    destruct (replaceVariables _ _); [settle|].
    destruct (alertRow _ _); [|settle].
    destruct (faults _ _); [settle|].
    destruct (ioInstance w); settle.
Qed.

Lemma emailCalls_of_trigger ws trig (context : Object) (w : World) :
  emailCalls (newEffects w (after (triggerAutomation ws trig context) w))
  = if faults w (ticks w) then []
    else flat_map (fun a => emailPayloads a context) (matching ws trig w).
Proof.
  unfold after. rewrite triggerAutomation_advance.
  destruct (faults w (ticks w)); cbn [snd].
  - now rewrite newEffects_advance.
  - rewrite (newEffects_trans w (advance [] 1 [CallTrigger ws trig context] w))
      by (try apply steady_advance; apply fold_steady; intros;
          apply executeAutomation_steady).
    rewrite newEffects_advance. unfold emailCalls at 1.
    rewrite flat_map_app. cbn [flat_map app].
    apply (fold_selects _
             (fun a w' => executeAutomation_steady a context w')).
    intros; apply emailCalls_of_execute.
Qed.

(** A loop seen through a selection of the log, when the body's share is
    the same in every world reached from [w0]. *)
Lemma fold_selects_from {A X : Type} (body : A -> M unit)
  (sel : Effect -> list X) (f : A -> list X) (w0 : World) :
  (forall x w, steady w (after (body x) w)) ->
  (forall x w, steady w0 w ->
               flat_map sel (newEffects w (after (body x) w)) = f x) ->
  forall l w,
    steady w0 w ->
    flat_map sel
      (newEffects w (fold_left (fun w' x => after (body x) w') l w))
    = flat_map f l.
Proof.
  intros Hsteady Hsel. induction l as [|x l IH]; intros w Hw.
  - cbn [fold_left flat_map]. now rewrite newEffects_refl.
  - cbn [fold_left flat_map].
    rewrite (newEffects_trans w (after (body x) w))
      by (auto using fold_steady).
    rewrite flat_map_app, Hsel by assumption. f_equal.
    apply IH. eapply steady_trans; [exact Hw | apply Hsteady].
Qed.

(** X17.  Who is mailed by a reminder scan in which no request fails:
    for every qualifying booking, in table order, every enabled rule of
    the booking's workspace for BOOKING_REMINDER that sends e-mail calls
    the channel once, addressed to the e-mail of the booking's contact,
    provided the contact has one and the rule's body is a template. *)
Theorem checkBookingReminders_emails (w : World) :
  faultFree w ->
  emailCalls (newEffects w (after checkBookingReminders w))
  = flat_map
      (fun b =>
         flat_map
           (fun a =>
              emailPayloads a
                (bookingContext (toLocaleDateString w)
                                (toLocaleTimeString w) b))
           (filter (automationWhere (Booking.workspaceId b) BOOKING_REMINDER)
                   (automationTable w)))
      (reminderBookings w).
Proof.
  intros Hff. unfold after.
  rewrite checkBookingReminders_advance, Hff. cbn [snd].
  rewrite (newEffects_trans w (advance [] 1 [] w))
    by (try apply steady_advance; apply fold_steady; intros;
        apply triggerAutomation_steady).
  rewrite newEffects_advance. cbn [app]. unfold emailCalls at 1.
  apply (fold_selects_from
           (fun b =>
              triggerAutomation (Booking.workspaceId b) BOOKING_REMINDER
                (bookingContext (toLocaleDateString w)
                                (toLocaleTimeString w) b))
           _ _ w).
  - intros. apply triggerAutomation_steady.
  - intros b w' (r & n & d & ->).
    fold (emailCalls
            (newEffects (advance r n d w)
               (after (triggerAutomation (Booking.workspaceId b)
                         BOOKING_REMINDER
                         (bookingContext (toLocaleDateString w)
                                         (toLocaleTimeString w) b))
                      (advance r n d w)))).
    rewrite emailCalls_of_trigger. cbn [faults advance]. now rewrite Hff.
  - apply steady_advance.
Qed.

Lemma checkBookingReminders_emails_witness :
  emailCalls (newEffects reminderWorld (after checkBookingReminders reminderWorld))
  = [mkEmail (JsString "sam@example.com") (JsString "Notification")
             (JsString "See you on 1/1/2026")].
Proof.
  refine (checkBookingReminders_emails reminderWorld _).
  intros n. reflexivity.
Defined.
